(** * Random roll-call plugin: roster loader and no-repeat selector

    Shallow embedding of [src/main.py]: the module-level function
    [read_names_from_file] and the selector methods of [FloatingWindow]
    ([load_names], [reset_shuffle], [get_next_name]).  The Qt widgets, the
    painting code and the plugin registration are presentation glue and are
    not modelled.

    Python values are modelled as follows.
    - [str] is a sequence of Unicode code points ([list Z]).
    - A Python [list] is a mutable object: it lives in a store ([heap]) and
      attributes hold its address, so that [self.names.copy()] followed by
      the in-place [random.shuffle] can be told apart from a shuffle of the
      roster itself.
    - [int] is [Z]; indexing follows Python (negative indices count from
      the end, out of range raises [IndexError]).
    - A call either returns or raises; the state changes made before an
      exception stay in place.
    - The generator of the [random] module is an arbitrary sequence of
      draws, so a statement about [shuffle] holds for every outcome of the
      shuffle.
    - The file system maps a path to the text that reading it yields or to
      the exception that reading it raises, and records the paths where a
      write is refused. *)

From Stdlib Require Import ZArith List String Ascii Lia.
From stdpp Require Import gmap list strings.

Open Scope Z_scope.

(** ** Text *)

Definition str := list Z.

(** Bytes of a source literal (the file is UTF-8, as the Python source). *)
Definition bytes_of (s : string) : list Z :=
  map (fun a => Z.of_N (N_of_ascii a)) (list_ascii_of_string s).

(** UTF-8 decoding of well-formed input, used only to write the source's
    string literals as they appear in [main.py]. *)
Fixpoint utf8_decode (bs : list Z) : str :=
  match bs with
  | [] => []
  | b0 :: r0 =>
    if b0 <? 0x80 then b0 :: utf8_decode r0
    else
      match r0 with
      | [] => [b0]
      | b1 :: r1 =>
        if b0 <? 0xE0 then
          Z.lor (Z.shiftl (Z.land b0 0x1F) 6) (Z.land b1 0x3F) :: utf8_decode r1
        else
          match r1 with
          | [] => [b0; b1]
          | b2 :: r2 =>
            if b0 <? 0xF0 then
              Z.lor (Z.shiftl (Z.land b0 0x0F) 12)
                (Z.lor (Z.shiftl (Z.land b1 0x3F) 6) (Z.land b2 0x3F))
              :: utf8_decode r2
            else
              match r2 with
              | [] => [b0; b1; b2]
              | b3 :: r3 =>
                Z.lor (Z.shiftl (Z.land b0 0x07) 18)
                  (Z.lor (Z.shiftl (Z.land b1 0x3F) 12)
                     (Z.lor (Z.shiftl (Z.land b2 0x3F) 6) (Z.land b3 0x3F)))
                :: utf8_decode r3
              end
          end
      end
  end.

Definition text (s : string) : str := utf8_decode (bytes_of s).

(** [str.isspace] on one character: CPython's [_PyUnicode_IsWhitespace]. *)
Definition isspace (c : Z) : bool :=
  ((0x09 <=? c) && (c <=? 0x0D)) || ((0x1C <=? c) && (c <=? 0x1F))
  || (c =? 0x20) || (c =? 0x85) || (c =? 0xA0) || (c =? 0x1680)
  || ((0x2000 <=? c) && (c <=? 0x200A))
  || (c =? 0x2028) || (c =? 0x2029) || (c =? 0x202F) || (c =? 0x205F)
  || (c =? 0x3000).

(** Line boundaries of [str.splitlines]: CPython's [_PyUnicode_IsLinebreak]. *)
Definition islinebreak (c : Z) : bool :=
  ((0x0A <=? c) && (c <=? 0x0D)) || ((0x1C <=? c) && (c <=? 0x1E))
  || (c =? 0x85) || (c =? 0x2028) || (c =? 0x2029).

Fixpoint lstrip (s : str) : str :=
  match s with
  | [] => []
  | c :: s' => if isspace c then lstrip s' else s
  end.

Definition rstrip (s : str) : str := reverse (lstrip (reverse s)).

(** [s.strip()] with no argument. *)
Definition strip (s : str) : str := rstrip (lstrip s).

(** Truth value of a [str] (and of a list): non-empty. *)
Definition truthy {A} (s : list A) : bool :=
  match s with [] => false | _ => true end.

(** [s.splitlines()]: [cur] is the current line, reversed.  A carriage
    return followed by a line feed is one boundary; a final line without a
    terminator is kept, an empty remainder after the last boundary is not. *)
Fixpoint splitlines_from (cur : str) (s : str) : list str :=
  match s with
  | [] => match cur with [] => [] | _ => [reverse cur] end
  | c :: rest =>
    if islinebreak c then
      reverse cur ::
        match rest with
        | c' :: rest' =>
          if (c =? 0x0D) && (c' =? 0x0A) then splitlines_from [] rest'
          else splitlines_from [] rest
        | [] => splitlines_from [] rest
        end
    else splitlines_from (c :: cur) rest
  end.

Definition splitlines (s : str) : list str := splitlines_from [] s.

(** [sep.join(parts)] *)
Fixpoint join (sep : str) (parts : list str) : str :=
  match parts with
  | [] => []
  | [p] => p
  | p :: ps => p ++ sep ++ join sep ps
  end.

(** ** Exceptions, log records, files, random source *)

Inductive exn :=
| OSError (errno : Z)
| UnicodeDecodeError
| IndexError.

Inductive level := DEBUG | INFO | SUCCESS | ERROR.

(** A log message: a literal, or an f-string with one hole. *)
Inductive message :=
| Literal (s : str)
| WithExn (prefix : str) (e : exn)
| WithInt (prefix : str) (n : Z) (suffix : str).

Definition log_record : Type := level * message.

Global Instance exn_eq_dec : EqDecision exn.
Proof. solve_decision. Defined.
Global Instance level_eq_dec : EqDecision level.
Proof. solve_decision. Defined.
Global Instance message_eq_dec : EqDecision message.
Proof. solve_decision. Defined.

Definition path := str.

(** What is found at a path: a text file, given by the [str] that
    [f.read()] returns for it, or something that exists but whose opening,
    reading or decoding raises. *)
Inductive node :=
| Text (content : str)
| Unreadable (e : exn).

(** The state of the global generator of the [random] module: an arbitrary
    sequence of raw draws and the number of draws made so far. *)
Record random_state := { tape : nat -> nat; drawn : nat }.

(** [random._randbelow(n)], for [n > 0]. *)
Definition randbelow (n : nat) (g : random_state) : nat * random_state :=
  ((tape g (drawn g) mod n)%nat, {| tape := tape g; drawn := S (drawn g) |}).

(** ** The store *)

Definition loc := nat.

(** The attributes of the [FloatingWindow] instance that the selector uses. *)
Record FloatingWindow := {
  names : loc;
  shuffled_names : loc;
  current_index : Z
}.

Record world := {
  self : FloatingWindow;
  heap : list (list str);
  rng : random_state;
  log : list log_record;
  files : gmap path node;
  denied : gmap path exn
}.

Definition with_self (s : FloatingWindow) (w : world) : world :=
  {| self := s; heap := heap w; rng := rng w; log := log w;
     files := files w; denied := denied w |}.
Definition with_heap (h : list (list str)) (w : world) : world :=
  {| self := self w; heap := h; rng := rng w; log := log w;
     files := files w; denied := denied w |}.
Definition with_rng (g : random_state) (w : world) : world :=
  {| self := self w; heap := heap w; rng := g; log := log w;
     files := files w; denied := denied w |}.
Definition with_log (l : list log_record) (w : world) : world :=
  {| self := self w; heap := heap w; rng := rng w; log := l;
     files := files w; denied := denied w |}.
Definition with_files (f : gmap path node) (w : world) : world :=
  {| self := self w; heap := heap w; rng := rng w; log := log w;
     files := f; denied := denied w |}.

(** ** Computations that return or raise *)

Inductive outcome (A : Type) :=
| Return (a : A)
| Raise (e : exn).
Arguments Return {A} a.
Arguments Raise {A} e.

Definition Py (A : Type) : Type := world -> outcome A * world.

Definition ret {A} (a : A) : Py A := fun w => (Return a, w).

Definition bind {A B} (m : Py A) (k : A -> Py B) : Py B :=
  fun w =>
    match m w with
    | (Return a, w') => k a w'
    | (Raise e, w') => (Raise e, w')
    end.

Definition raise {A} (e : exn) : Py A := fun w => (Raise e, w).

(** [try: m except Exception as e: h e] *)
Definition try_except {A} (m : Py A) (h : exn -> Py A) : Py A :=
  fun w =>
    match m w with
    | (Return a, w') => (Return a, w')
    | (Raise e, w') => h e w'
    end.

Declare Scope py_scope.
Delimit Scope py_scope with py.
Notation "x <- m ;; k" := (bind m (fun x => k))
  (at level 100, m at next level, right associativity) : py_scope.
Notation "m ;;; k" := (bind m (fun _ => k))
  (at level 100, right associativity) : py_scope.
Open Scope py_scope.

Definition gets {A} (f : world -> A) : Py A := fun w => (Return (f w), w).
Definition modify (f : world -> world) : Py unit := fun w => (Return tt, f w).

(** ** Python lists in the store *)

(** A list display or comprehension: a new object. *)
Definition new_list (v : list str) : Py loc :=
  fun w => (Return (length (heap w)), with_heap (heap w ++ [v]) w).

Definition list_value (l : loc) : Py (list str) :=
  gets (fun w => heap w !!! l).

(** [x.copy()] *)
Definition list_copy (l : loc) : Py loc :=
  v <- list_value l ;; new_list v.

(** [len(x)] *)
Definition len (l : loc) : Py Z :=
  v <- list_value l ;; ret (Z.of_nat (length v)).

(** [x[i]] *)
Definition getitem (l : loc) (i : Z) : Py str :=
  v <- list_value l ;;
  let n := Z.of_nat (length v) in
  let k := if i <? 0 then i + n else i in
  if (0 <=? k) && (k <? n) then
    match v !! Z.to_nat k with
    | Some a => ret a
    | None => raise IndexError
    end
  else raise IndexError.

(** [x[i], x[j] = x[j], x[i]]: the right-hand side is evaluated first, then
    [x[i]] and [x[j]] are assigned in that order.  The indices used by
    [shuffle] are always in range ([list_swap_in_range]). *)
Definition list_swap {A} (i j : nat) (x : list A) : list A :=
  match x !! j, x !! i with
  | Some xj, Some xi => <[j := xi]> (<[i := xj]> x)
  | _, _ => x
  end.

(** [random.shuffle(x)] (CPython, [Lib/random.py]):
    [for i in reversed(range(1, len(x))): j = randbelow(i + 1); swap].
    [shuffle_from i] runs the iterations [i, i-1, ..., 1]. *)
Fixpoint shuffle_from {A} (i : nat) (x : list A) (g : random_state)
  : list A * random_state :=
  match i with
  | O => (x, g)
  | S i' =>
    let '(j, g') := randbelow (S i) g in
    shuffle_from i' (list_swap i j x) g'
  end.

Definition shuffle {A} (x : list A) (g : random_state) : list A * random_state :=
  shuffle_from (length x - 1) x g.

(** The same loop with both reads of the swap checked, [None] standing for
    [IndexError]; it never fails ([shuffle_from_checked_total]), which is
    why [shuffle] is written as a total function. *)
Fixpoint shuffle_from_checked {A} (i : nat) (x : list A) (g : random_state)
  : option (list A * random_state) :=
  match i with
  | O => Some (x, g)
  | S i' =>
    let '(j, g') := randbelow (S i) g in
    match x !! j, x !! i with
    | Some xj, Some xi =>
      shuffle_from_checked i' (<[j := xi]> (<[i := xj]> x)) g'
    | _, _ => None
    end
  end.

(** [random.shuffle(x)] on a list object: in place, advancing the generator. *)
Definition random_shuffle (l : loc) : Py unit :=
  fun w =>
    let r := shuffle (heap w !!! l) (rng w) in
    (Return tt, with_rng (snd r) (with_heap (<[l := fst r]> (heap w)) w)).

(** ** Collaborators: logger and file system *)

Definition logger (lv : level) (m : message) : Py unit :=
  modify (fun w => with_log (log w ++ [(lv, m)]) w).

(** [os.path.exists(p)] *)
Definition os_path_exists (p : path) : Py bool :=
  gets (fun w => match files w !! p with Some _ => true | None => false end).

(** [with open(p, "w", encoding="utf-8") as f: f.write(s)]: refused with the
    exception recorded in [denied], otherwise the file holds [s].  Paths are
    keys of a flat map: two paths never name the same file, so links and
    other aliases are outside this model, and nothing below is stated about
    paths other than the one the loader is given. *)
Definition write_text (p : path) (s : str) : Py unit :=
  fun w =>
    match denied w !! p with
    | Some e => (Raise e, w)
    | None => (Return tt, with_files (<[p := Text s]> (files w)) w)
    end.

(** [with open(p, "r", encoding="utf-8") as f: f.read()] *)
Definition read_text (p : path) : Py str :=
  fun w =>
    match files w !! p with
    | Some (Text s) => (Return s, w)
    | Some (Unreadable e) => (Raise e, w)
    | None => (Raise (OSError 2), w)
    end.

(** ** [read_names_from_file]

    Each branch returns a list that nothing else refers to, so the function
    is modelled as returning the list's value; the caller that binds it
    creates the object. *)
Definition read_names_from_file (file_path : path) : Py (list str) :=
  found <- os_path_exists file_path ;;
  if negb found then
    let default_names :=
      [text "小明"; text "李华"; text "张三"; text "李四"; text "王五"; text "赵六"] in
    (write_text file_path (join (text (String "010" EmptyString)) default_names) ;;;
     ret default_names)
  else
    try_except
      (content <- read_text file_path ;;
       let names := splitlines content in
       ret (map strip (List.filter (fun name => truthy (strip name)) names)))
      (fun e =>
         logger ERROR (WithExn (text "读取名单文件时出错: ") e) ;;;
         ret [text "小明"; text "李华"; text "张三"; text "李四"]).

(** ** The selector: [FloatingWindow] *)

Definition get_names : Py loc := gets (fun w => names (self w)).
Definition get_shuffled_names : Py loc := gets (fun w => shuffled_names (self w)).
Definition get_current_index : Py Z := gets (fun w => current_index (self w)).

Definition set_names (l : loc) : Py unit :=
  modify (fun w => with_self {| names := l;
                                shuffled_names := shuffled_names (self w);
                                current_index := current_index (self w) |} w).
Definition set_shuffled_names (l : loc) : Py unit :=
  modify (fun w => with_self {| names := names (self w);
                                shuffled_names := l;
                                current_index := current_index (self w) |} w).
Definition set_current_index (i : Z) : Py unit :=
  modify (fun w => with_self {| names := names (self w);
                                shuffled_names := shuffled_names (self w);
                                current_index := i |} w).

Definition reset_shuffle : Py unit :=
  ns <- get_names ;;
  c <- list_copy ns ;;
  set_shuffled_names c ;;;
  q <- get_shuffled_names ;;
  random_shuffle q ;;;
  set_current_index 0.

(** [file_path] stands for the value of
    [os.path.join(os.path.dirname(__file__), "names.txt")]. *)
Definition load_names (file_path : path) : Py unit :=
  l <- read_names_from_file file_path ;;
  o <- new_list l ;;
  set_names o ;;;
  reset_shuffle ;;;
  ns <- get_names ;;
  n <- len ns ;;
  logger INFO (WithInt (text "随机点名：加载了 ") n (text " 个名字")).

(** The selector part of [FloatingWindow.__init__]. *)
Definition __init__ (file_path : path) : Py unit :=
  a <- new_list [] ;;
  set_names a ;;;
  b <- new_list [] ;;
  set_shuffled_names b ;;;
  set_current_index 0 ;;;
  load_names file_path.

Definition get_next_name : Py str :=
  q <- get_shuffled_names ;;
  v <- list_value q ;;
  if negb (truthy v) then ret (text "名单为空")
  else
    i <- get_current_index ;;
    q <- get_shuffled_names ;;
    n <- len q ;;
    (if n <=? i then
       reset_shuffle ;;;
       logger DEBUG (Literal (text "随机点名：重新洗牌"))
     else ret tt) ;;;
    q <- get_shuffled_names ;;
    i <- get_current_index ;;
    name <- getitem q i ;;
    i <- get_current_index ;;
    set_current_index (i + 1) ;;;
    ret name.

(** [n] consecutive calls of [get_next_name], collecting what they return;
    the run stops at the first call that raises. *)
Fixpoint get_next_name_times (n : nat) : Py (list str) :=
  match n with
  | O => ret []
  | S n' =>
    x <- get_next_name ;;
    xs <- get_next_name_times n' ;;
    ret (x :: xs)
  end.

(** ** The window: pointer events, result dialog, plugin entry point

    The Qt side is reduced to the state these methods read and write: where
    the floating window is, what the result dialog shows, which windows are
    visible.  Qt calls are taken to succeed; styling, fonts, fade-in and
    [event.accept()] leave no trace in this state and are left out. *)

(** [QPoint], with [a - b] and [manhattanLength()]. *)
Record QPoint := { qx : Z; qy : Z }.

Definition QPoint_sub (a b : QPoint) : QPoint :=
  {| qx := qx a - qx b; qy := qy a - qy b |}.

Definition manhattanLength (p : QPoint) : Z := Z.abs (qx p) + Z.abs (qy p).

(** [Qt.LeftButton] *)
Definition LeftButton : Z := 1.

(** What the handlers read of a [QMouseEvent]. *)
Record QMouseEvent := {
  button : Z;
  buttons : Z;
  globalPos : QPoint
}.

(** A [NameResultDialog]: [self.name], the text of [self.name_label], where
    the dialog is and whether it is shown. *)
Record NameResultDialog := {
  dialog_name : str;
  label_text : str;
  dialog_pos : QPoint;
  dialog_visible : bool
}.

(** The program state around the selector: [floating_window] tells whether
    [Plugin.floating_window] holds a window, [window_pos] is
    [frameGeometry().topLeft()], [screen_size] the width and height of
    [QDesktopWidget().availableGeometry()]. *)
Record gui := {
  sys : world;
  floating_window : bool;
  window_visible : bool;
  window_pos : QPoint;
  drag_pos : QPoint;
  mouse_press_pos : QPoint;
  result_dialog : option NameResultDialog;
  screen_size : QPoint
}.

Definition with_sys (w : world) (a : gui) : gui :=
  {| sys := w; floating_window := floating_window a;
     window_visible := window_visible a; window_pos := window_pos a;
     drag_pos := drag_pos a; mouse_press_pos := mouse_press_pos a;
     result_dialog := result_dialog a; screen_size := screen_size a |}.
Definition with_floating_window (b : bool) (a : gui) : gui :=
  {| sys := sys a; floating_window := b;
     window_visible := window_visible a; window_pos := window_pos a;
     drag_pos := drag_pos a; mouse_press_pos := mouse_press_pos a;
     result_dialog := result_dialog a; screen_size := screen_size a |}.
Definition with_window_visible (b : bool) (a : gui) : gui :=
  {| sys := sys a; floating_window := floating_window a;
     window_visible := b; window_pos := window_pos a;
     drag_pos := drag_pos a; mouse_press_pos := mouse_press_pos a;
     result_dialog := result_dialog a; screen_size := screen_size a |}.
Definition with_window_pos (p : QPoint) (a : gui) : gui :=
  {| sys := sys a; floating_window := floating_window a;
     window_visible := window_visible a; window_pos := p;
     drag_pos := drag_pos a; mouse_press_pos := mouse_press_pos a;
     result_dialog := result_dialog a; screen_size := screen_size a |}.
Definition with_drag_pos (p : QPoint) (a : gui) : gui :=
  {| sys := sys a; floating_window := floating_window a;
     window_visible := window_visible a; window_pos := window_pos a;
     drag_pos := p; mouse_press_pos := mouse_press_pos a;
     result_dialog := result_dialog a; screen_size := screen_size a |}.
Definition with_mouse_press_pos (p : QPoint) (a : gui) : gui :=
  {| sys := sys a; floating_window := floating_window a;
     window_visible := window_visible a; window_pos := window_pos a;
     drag_pos := drag_pos a; mouse_press_pos := p;
     result_dialog := result_dialog a; screen_size := screen_size a |}.
Definition with_result_dialog (d : option NameResultDialog) (a : gui) : gui :=
  {| sys := sys a; floating_window := floating_window a;
     window_visible := window_visible a; window_pos := window_pos a;
     drag_pos := drag_pos a; mouse_press_pos := mouse_press_pos a;
     result_dialog := d; screen_size := screen_size a |}.

Definition Ui (A : Type) : Type := gui -> outcome A * gui.

Definition uret {A} (x : A) : Ui A := fun a => (Return x, a).

Definition ubind {A B} (m : Ui A) (k : A -> Ui B) : Ui B :=
  fun a =>
    match m a with
    | (Return x, a') => k x a'
    | (Raise e, a') => (Raise e, a')
    end.

(** [try: m except Exception as e: h e] *)
Definition utry {A} (m : Ui A) (h : exn -> Ui A) : Ui A :=
  fun a =>
    match m a with
    | (Return x, a') => (Return x, a')
    | (Raise e, a') => h e a'
    end.

(** A computation on the selector's world, run inside the program. *)
Definition lift {A} (m : Py A) : Ui A :=
  fun a => let r := m (sys a) in (fst r, with_sys (snd r) a).

Definition ugets {A} (f : gui -> A) : Ui A := fun a => (Return (f a), a).
Definition umodify (f : gui -> gui) : Ui unit := fun a => (Return tt, f a).

Declare Scope ui_scope.
Delimit Scope ui_scope with ui.
Notation "x <- m ;; k" := (ubind m (fun x => k))
  (at level 100, m at next level, right associativity) : ui_scope.
Notation "m ;;; k" := (ubind m (fun _ => k))
  (at level 100, right associativity) : ui_scope.
Open Scope ui_scope.

Definition ulog (lv : level) (m : message) : Ui unit := lift (logger lv m).

(** [self.move(p)] on the floating window *)
Definition move (p : QPoint) : Ui unit := umodify (with_window_pos p).

(** *** [NameResultDialog] *)

(** [NameResultDialog(name, parent)]: [init_ui] fixes the size to 800 x 500
    and puts [name] in the label, [move_center] centres the dialog. *)
Definition NameResultDialog_new (name : str) : Ui NameResultDialog :=
  screen <- ugets screen_size ;;
  let x := (qx screen - 800) / 2 in
  let y := (qy screen - 500) / 2 in
  uret {| dialog_name := name; label_text := name;
          dialog_pos := {| qx := x; qy := y |}; dialog_visible := false |}.

(** [update_content(new_name)] *)
Definition update_content (d : NameResultDialog) (new_name : str)
  : NameResultDialog :=
  {| dialog_name := new_name; label_text := new_name;
     dialog_pos := dialog_pos d; dialog_visible := dialog_visible d |}.

(** [NameResultDialog.show()] *)
Definition dialog_show (d : NameResultDialog) : Ui NameResultDialog :=
  ulog DEBUG (Literal (text "随机点名：开始淡入动画")) ;;;
  uret {| dialog_name := dialog_name d; label_text := label_text d;
          dialog_pos := dialog_pos d; dialog_visible := true |}.

(** *** [FloatingWindow] *)

Definition show_random_name : Ui unit :=
  utry
    (name <- lift get_next_name ;;
     ulog INFO (Literal (text "随机点名：抽取到名字=" ++ name)) ;;;
     cur <- ugets result_dialog ;;
     (match cur with
      | None =>
        d <- NameResultDialog_new name ;;
        umodify (with_result_dialog (Some d)) ;;;
        ulog DEBUG (Literal (text "随机点名：创建新的结果对话框"))
      | Some d =>
        umodify (with_result_dialog (Some (update_content d name))) ;;;
        ulog DEBUG (Literal (text "随机点名：更新现有对话框内容"))
      end) ;;;
     cur <- ugets result_dialog ;;
     (match cur with
      | Some d =>
        d' <- dialog_show d ;;
        umodify (with_result_dialog (Some d'))
      | None => uret tt
      end) ;;;
     ulog SUCCESS (Literal (text "随机点名：结果对话框显示成功")))
    (fun e => ulog ERROR (WithExn (text "随机点名：显示结果时出错: ") e)).

Definition reroll_name : Ui unit :=
  ulog INFO (Literal (text "随机点名：用户点击重新点名")) ;;;
  cur <- ugets result_dialog ;;
  match cur with
  | Some d =>
    name <- lift get_next_name ;;
    ulog INFO (Literal (text "随机点名：重新抽取到名字=" ++ name)) ;;;
    umodify (with_result_dialog (Some (update_content d name)))
  | None => uret tt
  end.

Definition mousePressEvent (event : QMouseEvent) : Ui unit :=
  if button event =? LeftButton then
    top_left <- ugets window_pos ;;
    umodify (with_drag_pos (QPoint_sub (globalPos event) top_left)) ;;;
    umodify (with_mouse_press_pos (globalPos event))
  else uret tt.

Definition mouseMoveEvent (event : QMouseEvent) : Ui unit :=
  if buttons event =? LeftButton then
    d <- ugets drag_pos ;;
    move (QPoint_sub (globalPos event) d)
  else uret tt.

Definition mouseReleaseEvent (event : QMouseEvent) : Ui unit :=
  if button event =? LeftButton then
    pressed <- ugets mouse_press_pos ;;
    let distance := manhattanLength (QPoint_sub (globalPos event) pressed) in
    ulog DEBUG (WithInt (text "随机点名：鼠标释放，移动距离=") distance []) ;;;
    if distance <=? 15 then
      ulog INFO (Literal (text "随机点名：检测到点击事件")) ;;;
      show_random_name
    else ulog DEBUG (Literal (text "随机点名：视为拖拽操作"))
  else uret tt.

(** [move_to_corner], the window being 60 wide after [setFixedSize(60, 45)]. *)
Definition move_to_corner : Ui unit :=
  screen <- ugets screen_size ;;
  let taskbar_height := 80 in
  let x := qx screen - 60 - 10 in
  let y := qy screen - taskbar_height in
  move {| qx := x; qy := y |}.

(** [FloatingWindow.init_ui], as far as the position goes. *)
Definition init_ui : Ui unit := move_to_corner.

(** [FloatingWindow()], in the order of the source. *)
Definition FloatingWindow_new (file_path : path) : Ui unit :=
  lift (a <- new_list [] ;; set_names a ;;;
        b <- new_list [] ;; set_shuffled_names b ;;;
        set_current_index 0)%py ;;;
  umodify (with_drag_pos {| qx := 0; qy := 0 |}) ;;;
  umodify (with_mouse_press_pos {| qx := 0; qy := 0 |}) ;;;
  umodify (with_result_dialog None) ;;;
  lift (load_names file_path) ;;;
  init_ui.

(** [Plugin.execute]; [file_path] as in [load_names]. *)
Definition execute (file_path : path) : Ui unit :=
  ulog INFO (Literal (text "随机点名插件启动")) ;;;
  utry
    (fw <- ugets floating_window ;;
     (if negb fw then
        FloatingWindow_new file_path ;;;
        umodify (with_floating_window true) ;;;
        ulog INFO (Literal (text "创建随机点名悬浮窗"))
      else uret tt) ;;;
     umodify (with_window_visible true) ;;;
     ulog SUCCESS (Literal (text "随机点名悬浮窗显示成功")))
    (fun e => ulog ERROR (WithExn (text "随机点名插件启动失败: ") e)).

(** The text the result dialog shows, if there is a dialog. *)
Definition shown_name : Ui (option str) :=
  ugets (fun a => match result_dialog a with
                  | Some d => Some (label_text d)
                  | None => None
                  end).

(** [n] presses of the reroll button, collecting what the dialog shows
    after each. *)
Fixpoint reroll_times (n : nat) : Ui (list (option str)) :=
  match n with
  | O => uret []
  | S n' =>
    reroll_name ;;;
    x <- shown_name ;;
    xs <- reroll_times n' ;;
    uret (x :: xs)
  end.

(** A click on the floating window followed by [n] presses of the reroll
    button. *)
Definition click_then_rerolls (n : nat) : Ui (list (option str)) :=
  show_random_name ;;;
  x <- shown_name ;;
  xs <- reroll_times n ;;
  uret (x :: xs).

(** [n] pointer moves in a row. *)
Fixpoint mouse_moves (events : list QMouseEvent) : Ui unit :=
  match events with
  | [] => uret tt
  | event :: rest => mouseMoveEvent event ;;; mouse_moves rest
  end.

Close Scope ui_scope.

(** *** The particles of [NameResultDialog]

    [Particle] computes with floats; it is kept abstract.  [Particle_new x y]
    stands for [Particle(x, y)], which draws its velocity, decay, size and
    colour from the [random] module; [Particle_update p] stands for
    [p.update()]: the particle after the step and whether [life > 0]. *)
Section Particles.
Variable Particle : Type.
Variable Particle_new : Z -> Z -> random_state -> Particle * random_state.
Variable Particle_update : Particle -> Particle * bool.

(** [random.randint(0, b)] for [b >= 0]: [randrange(0, b + 1)]. *)
Definition randint0 (b : nat) (g : random_state) : Z * random_state :=
  let r := randbelow (S b) g in (Z.of_nat (fst r), snd r).

(** [for _ in range(n)]: draw a position inside the dialog, append a
    particle there. *)
Fixpoint spawn (n width height : nat) (particles : list Particle)
    (g : random_state) : list Particle * random_state :=
  match n with
  | O => (particles, g)
  | S n' =>
    let '(x, g1) := randint0 width g in
    let '(y, g2) := randint0 height g1 in
    let '(p, g3) := Particle_new x y g2 in
    spawn n' width height (particles ++ [p]) g3
  end.

(** [[p for p in self.particles if p.update()]] *)
Fixpoint update_all (particles : list Particle) : list Particle :=
  match particles with
  | [] => []
  | p :: rest =>
    let '(p', alive) := Particle_update p in
    if alive then p' :: update_all rest else update_all rest
  end.

(** [NameResultDialog.update_particles], on the particle list and the
    generator; [width] and [height] are [self.width()] and [self.height()]. *)
Definition update_particles (width height : nat) (particles : list Particle)
    (g : random_state) : list Particle * random_state :=
  let '(spawned, g') :=
    if (length particles <? 30)%nat then spawn 2 width height particles g
    else (particles, g) in
  (update_all spawned, g').

(** [n] timer ticks, starting from the empty list of [__init__]. *)
Fixpoint ticks (n width height : nat) (g : random_state)
  : list Particle * random_state :=
  match n with
  | O => ([], g)
  | S n' =>
    let '(particles, g') := ticks n' width height g in
    update_particles width height particles g'
  end.
End Particles.

(** ** Views of the selector state and vocabulary of the properties *)

(** The roster: the list object [self.names] refers to. *)
Definition roster (w : world) : list str := heap w !!! names (self w).

(** The shuffle queue: the list object [self.shuffled_names] refers to. *)
Definition queue (w : world) : list str := heap w !!! shuffled_names (self w).

Definition cursor (w : world) : Z := current_index (self w).

(** The same world with [self.current_index] set to [i]. *)
Definition at_cursor (i : Z) (w : world) : world :=
  with_self {| names := names (self w);
               shuffled_names := shuffled_names (self w);
               current_index := i |} w.

(** The world that [reset_shuffle] leaves ([reset_shuffle_run]): a new list
    object holding the shuffled copy of the roster, and the cursor at 0. *)
Definition reshuffled (w : world) : world :=
  {| self := {| names := names (self w);
                shuffled_names := length (heap w);
                current_index := 0 |};
     heap := heap w ++ [fst (shuffle (roster w) (rng w))];
     rng := snd (shuffle (roster w) (rng w));
     log := log w; files := files w; denied := denied w |}.

(** The record that [get_next_name] logs when it reshuffles, and how many
    of them a log holds. *)
Definition reshuffle_record : log_record :=
  (DEBUG, Literal (text "随机点名：重新洗牌")).

Definition reshuffles (l : list log_record) : nat :=
  length (filter (fun r => r = reshuffle_record) l).

(** The two built-in lists of [read_names_from_file] and its error record. *)
Definition default_names : list str :=
  [text "小明"; text "李华"; text "张三"; text "李四"; text "王五"; text "赵六"].

Definition fallback_names : list str :=
  [text "小明"; text "李华"; text "张三"; text "李四"].

Definition read_error_record (e : exn) : log_record :=
  (ERROR, WithExn (text "读取名单文件时出错: ") e).

(** What the loader writes when the file is missing. *)
Definition default_file : str :=
  join (text (String "010" EmptyString)) default_names.

(** A string of whitespace only (a blank line, a blank file). *)
Definition blank (s : str) : Prop := Forall (fun c => isspace c = true) s.

(** The result of a successful load as the specification words it: strip
    every line, then drop the lines that are empty. *)
Definition trimmed_nonempty_lines (content : str) : list str :=
  List.filter (fun s => truthy s) (map strip (splitlines content)).

(** A name with nothing left to strip. *)
Definition trimmed (n : str) : Prop :=
  n <> [] /\
  forall c, head n = Some c \/ last n = Some c -> isspace c = false.

(** The cursor invariant of the data model. *)
Definition cursor_in_range (w : world) : Prop :=
  0 <= cursor w <= Z.of_nat (length (queue w)).

(** What holds of the selector between calls. *)
Record selector_ok (w : world) : Prop := {
  names_live : (names (self w) < length (heap w))%nat;
  queue_live : (shuffled_names (self w) < length (heap w))%nat;
  queue_fresh : names (self w) <> shuffled_names (self w);
  queue_perm : queue w ≡ₚ roster w;
  cursor_range : cursor_in_range w
}.

(** The worlds in which a selector exists: the constructor has returned,
    then [reset_shuffle] and [get_next_name] are called any number of
    times, while the rest of the program creates list objects, draws random
    numbers, logs and changes files in between. *)
Inductive reachable : world -> Prop :=
| reach_new p w :
    fst (__init__ p w) = Return tt -> reachable (snd (__init__ p w))
| reach_reset w :
    reachable w -> reachable (snd (reset_shuffle w))
| reach_next w :
    reachable w -> reachable (snd (get_next_name w))
| reach_env w objs g l f d :
    reachable w ->
    reachable {| self := self w; heap := heap w ++ objs; rng := g; log := l;
                 files := f; denied := d |}.

(** A selector whose queue is used up: the next call reshuffles. *)
Definition used_up (w : world) : Prop :=
  selector_ok w /\ queue w <> [] /\ cursor w = Z.of_nat (length (queue w)).

(** A string without a line boundary, and the separator the loader writes. *)
Definition single_line (s : str) : Prop :=
  Forall (fun c => islinebreak c = false) s.

Definition newline : str := text (String "010" EmptyString).

(** A roster that can be written one name per line: every name is trimmed
    and fits on one line. *)
Definition clean_roster (l : list str) : Prop :=
  Forall (fun n => trimmed n /\ single_line n) l.

(** Two worlds with the same selector: same attributes, same list objects,
    same generator; the log and the files may differ. *)
Definition same_selector (v w : world) : Prop :=
  self v = self w /\ heap v = heap w /\ rng v = rng w.

(** Where [move_center] puts a new result dialog. *)
Definition centre (a : gui) : QPoint :=
  {| qx := (qx (screen_size a) - 800) / 2;
     qy := (qy (screen_size a) - 500) / 2 |}.

(** Where [move_to_corner] puts the floating window. *)
Definition corner (a : gui) : QPoint :=
  {| qx := qx (screen_size a) - 70; qy := qy (screen_size a) - 80 |}.

(** ** Sample worlds *)

Definition names_txt : path := text "names.txt".

Definition sample_rng : random_state :=
  {| tape := fun k => (7 * k + 3)%nat; drawn := 0 |}.

(** Before the plugin starts: empty store, no roster file. *)
Definition boot : world :=
  {| self := {| names := 0%nat; shuffled_names := 0%nat; current_index := 0 |};
     heap := []; rng := sample_rng; log := []; files := ∅; denied := ∅ |}.

(** The plugin directory is read-only. *)
Definition boot_readonly : world :=
  {| self := self boot; heap := []; rng := sample_rng; log := [];
     files := ∅; denied := {[ names_txt := OSError 13 ]} |}.

(** The roster file holds blank lines only. *)
Definition boot_blank : world :=
  {| self := self boot; heap := []; rng := sample_rng; log := [];
     files := {[ names_txt := Text (text (String "010" (String " " (String " " (String "010" EmptyString))))) ]};
     denied := ∅ |}.

(** The roster file holds three names among blank lines and padding. *)
Definition boot_padded : world :=
  {| self := self boot; heap := []; rng := sample_rng; log := [];
     files := {[ names_txt :=
                   Text (text "  Ann" ++ [0x0A; 0x0A; 0x3000] ++ text "Bob "
                         ++ [0x0A; 0x09; 0x0A] ++ text "Cy") ]};
     denied := ∅ |}.

(** The roster path is a directory. *)
Definition boot_unreadable : world :=
  {| self := self boot; heap := []; rng := sample_rng; log := [];
     files := {[ names_txt := Unreadable (OSError 21) ]}; denied := ∅ |}.

(** The roster file holds the same name on two lines. *)
Definition boot_twins : world :=
  {| self := self boot; heap := []; rng := sample_rng; log := [];
     files := {[ names_txt := Text (text "李华" ++ [0x0A] ++ text "李华") ]};
     denied := ∅ |}.

(** The roster file holds one name, the text of the empty-roster
    sentinel. *)
Definition boot_sentinel : world :=
  {| self := self boot; heap := []; rng := sample_rng; log := [];
     files := {[ names_txt := Text (text "名单为空") ]}; denied := ∅ |}.

(** Selectors: over the six default names, over an empty roster, over the
    roster with a repeated name, and the first one after six names have
    been handed out. *)
Definition started : world := snd (__init__ names_txt boot).
Definition started_blank : world := snd (__init__ names_txt boot_blank).
Definition started_twins : world := snd (__init__ names_txt boot_twins).
Definition exhausted : world := snd (get_next_name_times 6 started).
Definition started_sentinel : world := snd (__init__ names_txt boot_sentinel).

(** The selector over the default names after two names have been handed
    out, and the same selector seen after the roster file was deleted and
    the log cleared. *)
Definition midway : world := snd (get_next_name_times 2 started).

Definition midway_elsewhere : world :=
  {| self := self midway; heap := heap midway; rng := rng midway;
     log := []; files := ∅; denied := ∅ |}.

(** A second roster file, written one name per line from the three names
    that [boot_padded] loads. *)
Definition saved_txt : path := text "saved.txt".

Definition boot_saved : world :=
  {| self := self boot; heap := []; rng := sample_rng; log := [];
     files := {[ saved_txt :=
                   Text (join newline [text "Ann"; text "Bob"; text "Cy"]) ]};
     denied := ∅ |}.

(** The desktop before the plugin is triggered, on a 1920 x 1080 screen;
    the same with a read-only plugin directory; the plugin running over
    the default names with no result dialog yet; and after a first click. *)
Definition desk : gui :=
  {| sys := boot; floating_window := false; window_visible := false;
     window_pos := {| qx := 0; qy := 0 |};
     drag_pos := {| qx := 0; qy := 0 |};
     mouse_press_pos := {| qx := 0; qy := 0 |};
     result_dialog := None;
     screen_size := {| qx := 1920; qy := 1080 |} |}.

Definition desk_readonly : gui := with_sys boot_readonly desk.

Definition running : gui :=
  {| sys := started; floating_window := true; window_visible := true;
     window_pos := {| qx := 1850; qy := 1000 |};
     drag_pos := {| qx := 0; qy := 0 |};
     mouse_press_pos := {| qx := 1860; qy := 1010 |};
     result_dialog := None;
     screen_size := {| qx := 1920; qy := 1080 |} |}.

Definition showing : gui := snd (show_random_name running).

(** Pointer events: a press on the window, a release 5 pixels away, a
    release 300 pixels away, and two moves with the left button held. *)
Definition press_event : QMouseEvent :=
  {| button := 1; buttons := 1; globalPos := {| qx := 1860; qy := 1010 |} |}.
Definition release_near : QMouseEvent :=
  {| button := 1; buttons := 0; globalPos := {| qx := 1863; qy := 1008 |} |}.
Definition release_far : QMouseEvent :=
  {| button := 1; buttons := 0; globalPos := {| qx := 1600; qy := 970 |} |}.
Definition move_a : QMouseEvent :=
  {| button := 0; buttons := 1; globalPos := {| qx := 1700; qy := 990 |} |}.
Definition move_b : QMouseEvent :=
  {| button := 0; buttons := 1; globalPos := {| qx := 1600; qy := 970 |} |}.

(** * Properties *)

(** ** Text: [strip] and [splitlines] *)

Section Text.
Implicit Types s cur : str.

Lemma islinebreak_isspace c : islinebreak c = true -> isspace c = true.
Proof.
  unfold islinebreak, isspace.
  rewrite ?orb_true_iff, ?andb_true_iff, ?Z.leb_le, ?Z.eqb_eq. lia.
Qed.

Lemma blank_nil : blank [].
Proof. constructor. Qed.

Lemma blank_cons c s : blank (c :: s) <-> isspace c = true /\ blank s.
Proof. unfold blank. rewrite Forall_cons. reflexivity. Qed.

Lemma blank_reverse s : blank (reverse s) <-> blank s.
Proof.
  unfold blank. rewrite !Forall_forall.
  setoid_rewrite elem_of_reverse. reflexivity.
Qed.

(** [lstrip] removes a blank prefix and nothing else. *)
Lemma lstrip_split s : exists ws, s = ws ++ lstrip s /\ blank ws.
Proof.
  induction s as [|c s (ws & E & B)].
  - exists []. split; [reflexivity|apply blank_nil].
  - cbn [lstrip]. destruct (isspace c) eqn:Hc.
    + exists (c :: ws). split; [cbn; congruence|].
      apply blank_cons; split; assumption.
    + exists []. split; [reflexivity|apply blank_nil].
Qed.

Lemma lstrip_head s c : head (lstrip s) = Some c -> isspace c = false.
Proof.
  induction s as [|a s IH]; cbn [lstrip]; [discriminate|].
  destruct (isspace a) eqn:Ha; [exact IH|].
  cbn. intros [= <-]. exact Ha.
Qed.

Lemma lstrip_nil_iff s : lstrip s = [] <-> blank s.
Proof.
  induction s as [|a s IH]; cbn [lstrip].
  - split; [intros _; apply blank_nil|reflexivity].
  - rewrite blank_cons. destruct (isspace a) eqn:Ha.
    + rewrite IH. tauto.
    + split; [discriminate|intros [? _]; discriminate].
Qed.

Lemma blank_lstrip_nil s : blank (lstrip s) -> lstrip s = [].
Proof.
  intros B. destruct (lstrip s) as [|c t] eqn:E; [reflexivity|].
  assert (H : isspace c = false)
    by (apply (lstrip_head s); rewrite E; reflexivity).
  apply blank_cons in B. destruct B; congruence.
Qed.

Lemma rstrip_nil_iff s : rstrip s = [] <-> blank s.
Proof.
  unfold rstrip. rewrite <- blank_reverse, <- lstrip_nil_iff.
  split; intros H.
  - apply (f_equal reverse) in H. rewrite reverse_involutive in H. exact H.
  - rewrite H. reflexivity.
Qed.

Lemma strip_nil_iff s : strip s = [] <-> blank s.
Proof.
  unfold strip. rewrite rstrip_nil_iff. split; intros H.
  - apply lstrip_nil_iff, blank_lstrip_nil, H.
  - apply lstrip_nil_iff in H. rewrite H. apply blank_nil.
Qed.

Lemma rstrip_split s : exists ws, s = rstrip s ++ ws /\ blank ws.
Proof.
  destruct (lstrip_split (reverse s)) as (ws & E & B).
  exists (reverse ws). split; [|apply blank_reverse, B].
  unfold rstrip. rewrite <- reverse_app, <- E, reverse_involutive.
  reflexivity.
Qed.

Lemma strip_head s c : head (strip s) = Some c -> isspace c = false.
Proof.
  unfold strip. destruct (rstrip_split (lstrip s)) as (ws & E & _).
  intros H. apply (lstrip_head s). rewrite E.
  destruct (rstrip (lstrip s)); [discriminate|exact H].
Qed.

Lemma strip_last s c : last (strip s) = Some c -> isspace c = false.
Proof. unfold strip, rstrip. rewrite last_reverse. apply lstrip_head. Qed.

Lemma strip_trimmed s : strip s <> [] -> trimmed (strip s).
Proof.
  intros Hne. split; [exact Hne|].
  intros c [H|H]; [apply (strip_head s c H)|apply (strip_last s c H)].
Qed.

Lemma splitlines_from_cons cur c rest :
  splitlines_from cur (c :: rest) =
  if islinebreak c then
    reverse cur ::
      match rest with
      | c' :: rest' =>
        if (c =? 0x0D) && (c' =? 0x0A) then splitlines_from [] rest'
        else splitlines_from [] rest
      | [] => splitlines_from [] rest
      end
  else splitlines_from (c :: cur) rest.
Proof. reflexivity. Qed.

(** Every line boundary is whitespace, so the lines are all blank exactly
    when the text is.  The statement is proved for [s] and for [c :: s]
    together, since a CR LF boundary skips two characters. *)
Lemma splitlines_from_blank_step s :
  (forall cur, Forall blank (splitlines_from cur s) <-> blank cur /\ blank s) /\
  (forall c cur, Forall blank (splitlines_from cur (c :: s))
                 <-> blank cur /\ blank (c :: s)).
Proof.
  assert (Hnil : forall cur,
             Forall blank (splitlines_from cur []) <-> blank cur /\ blank []).
  { intros cur. pose proof blank_nil. cbn. destruct cur as [|a cur].
    - split; [tauto|constructor].
    - rewrite Forall_singleton, blank_reverse. tauto. }
  pose proof blank_nil as Bnil.
  induction s as [|a s [IH1 IH2]].
  - split; [exact Hnil|]. intros c cur. rewrite splitlines_from_cons.
    destruct (islinebreak c) eqn:Hc.
    + apply islinebreak_isspace in Hc.
      cbn [splitlines_from]. rewrite Forall_singleton, blank_reverse, blank_cons.
      tauto.
    + rewrite Hnil, !blank_cons. tauto.
  - split; [exact (IH2 a)|]. intros c cur. rewrite splitlines_from_cons.
    destruct (islinebreak c) eqn:Hc.
    + apply islinebreak_isspace in Hc.
      destruct ((c =? 13) && (a =? 10)) eqn:Hcrlf.
      * apply andb_true_iff in Hcrlf. destruct Hcrlf as [_ Ha%Z.eqb_eq].
        subst a. assert (isspace 10 = true) by reflexivity.
        rewrite Forall_cons, blank_reverse, IH1, !blank_cons. tauto.
      * rewrite Forall_cons, blank_reverse, IH2, !blank_cons. tauto.
    + rewrite IH2, !blank_cons. tauto.
Qed.

Lemma splitlines_blank s : Forall blank (splitlines s) <-> blank s.
Proof.
  unfold splitlines. rewrite (proj1 (splitlines_from_blank_step s)).
  pose proof blank_nil. tauto.
Qed.

(** The comprehension [[name.strip() for name in names if name.strip()]]
    filters on the stripped line and then strips; the specification strips
    and then filters. *)
Lemma comprehension_filter_map (lines : list str) :
  map strip (List.filter (fun name => truthy (strip name)) lines)
  = List.filter (fun s => truthy s) (map strip lines).
Proof.
  induction lines as [|l lines IH]; [reflexivity|].
  cbn [map List.filter].
  destruct (truthy (strip l)); cbn [map]; rewrite IH; reflexivity.
Qed.

Lemma comprehension_nil_iff (lines : list str) :
  map strip (List.filter (fun name => truthy (strip name)) lines) = []
  <-> Forall blank lines.
Proof.
  induction lines as [|l lines IH]; [split; constructor|].
  cbn [map List.filter]. rewrite Forall_cons, <- IH, <- strip_nil_iff.
  destruct (strip l) eqn:E; cbn [truthy map]; rewrite ?E; [tauto|].
  split; [discriminate|intros [? _]; discriminate].
Qed.

Lemma filter_truthy_trimmed (lines : list str) :
  Forall trimmed (List.filter (fun s => truthy s) (map strip lines)).
Proof.
  induction lines as [|l lines IH]; [constructor|].
  cbn [map List.filter]. destruct (strip l) eqn:E; cbn [truthy]; [exact IH|].
  constructor; [|exact IH]. rewrite <- E. apply strip_trimmed. congruence.
Qed.

Lemma filter_truthy_sublist (ls : list str) :
  List.filter (fun s => truthy s) ls `sublist_of` ls.
Proof.
  induction ls as [|l ls IH]; [constructor|].
  cbn [List.filter]. destruct (truthy l); constructor; exact IH.
Qed.
End Text.

(** ** [random.shuffle] returns a permutation *)

Section Shuffle.
Context {A : Type}.
Implicit Types x : list A.

Lemma insert_head_perm x (j : nat) (a b : A) :
  x !! j = Some b -> b :: <[j := a]> x ≡ₚ a :: x.
Proof.
  revert j. induction x as [|c x IH]; intros [|j] H; try discriminate.
  - injection H as ->. apply Permutation_swap.
  - cbn in H |- *.
    rewrite (Permutation_swap c b), (IH j H). apply Permutation_swap.
Qed.

Lemma insert_insert_perm x (i j : nat) (xi xj : A) :
  x !! i = Some xi -> x !! j = Some xj ->
  <[j := xi]> (<[i := xj]> x) ≡ₚ x.
Proof.
  revert i j.
  induction x as [|c x IH]; intros [|i] [|j] Hi Hj; try discriminate.
  - injection Hi as ->. reflexivity.
  - injection Hi as ->. cbn in Hj |- *. apply insert_head_perm, Hj.
  - injection Hj as ->. cbn in Hi |- *. apply insert_head_perm, Hi.
  - cbn in Hi, Hj |- *. rewrite (IH i j Hi Hj). reflexivity.
Qed.

Lemma list_swap_perm (i j : nat) x : list_swap i j x ≡ₚ x.
Proof.
  unfold list_swap.
  destruct (x !! j) as [xj|] eqn:Hj; [|reflexivity].
  destruct (x !! i) as [xi|] eqn:Hi; [|reflexivity].
  apply insert_insert_perm; assumption.
Qed.

(** In [shuffle_from], [i < len(x)] and [j <= i]: both reads succeed, no
    [IndexError] is possible. *)
Lemma list_swap_in_range (i j : nat) x :
  (i < length x)%nat -> (j <= i)%nat ->
  exists xi xj, x !! i = Some xi /\ x !! j = Some xj /\
                list_swap i j x = <[j := xi]> (<[i := xj]> x).
Proof.
  intros Hi Hj.
  destruct (lookup_lt_is_Some_2 x i Hi) as [xi Ei].
  destruct (lookup_lt_is_Some_2 x j ltac:(lia)) as [xj Ej].
  exists xi, xj. unfold list_swap. rewrite Ei, Ej. auto.
Qed.

Lemma randbelow_lt (n : nat) g :
  (0 < n)%nat -> (fst (randbelow n g) < n)%nat.
Proof. intros H. cbn. apply Nat.mod_upper_bound. lia. Qed.

Lemma shuffle_from_checked_total (i : nat) x g :
  (i < length x)%nat ->
  shuffle_from_checked i x g = Some (shuffle_from i x g).
Proof.
  revert x g. induction i as [|i IH]; intros x g Hi; [reflexivity|].
  cbn [shuffle_from shuffle_from_checked].
  pose proof (randbelow_lt (S (S i)) g ltac:(lia)) as Hj.
  destruct (randbelow (S (S i)) g) as [j g']. cbn [fst] in Hj.
  destruct (list_swap_in_range (S i) j x Hi ltac:(lia)) as (xi & xj & Ei & Ej & E).
  rewrite Ei, Ej, E. apply IH. rewrite !length_insert. lia.
Qed.

Lemma shuffle_checked_total x g :
  shuffle_from_checked (length x - 1) x g = Some (shuffle x g).
Proof.
  destruct x as [|a x]; [reflexivity|].
  apply shuffle_from_checked_total. cbn. lia.
Qed.

Lemma shuffle_from_perm (i : nat) x g : fst (shuffle_from i x g) ≡ₚ x.
Proof.
  revert x g. induction i as [|i IH]; intros x g; [reflexivity|].
  cbn. rewrite IH. apply list_swap_perm.
Qed.

Lemma shuffle_perm x g : fst (shuffle x g) ≡ₚ x.
Proof. apply shuffle_from_perm. Qed.

Lemma shuffle_length x g : length (fst (shuffle x g)) = length x.
Proof. apply Permutation_length, shuffle_perm. Qed.
End Shuffle.

(** ** Running the computations *)

Ltac py_run :=
  cbv [bind ret raise try_except gets modify
       get_names get_shuffled_names get_current_index
       set_names set_shuffled_names set_current_index
       list_value list_copy new_list len random_shuffle logger
       os_path_exists with_self with_heap with_rng with_log with_files];
  cbn [self heap rng log files denied names shuffled_names current_index
       fst snd].

Ltac loader_run :=
  unfold read_names_from_file, write_text, read_text; py_run.

(** *** The loader, case by case *)

Lemma read_text_file p w c :
  files w !! p = Some (Text c) ->
  read_names_from_file p w =
    (Return (map strip
               (List.filter (fun name => truthy (strip name)) (splitlines c))),
     w).
Proof. intros H. loader_run. rewrite H. cbn [negb]. rewrite H. reflexivity. Qed.

Lemma read_unreadable p w e :
  files w !! p = Some (Unreadable e) ->
  read_names_from_file p w =
    (Return fallback_names, with_log (log w ++ [read_error_record e]) w).
Proof. intros H. loader_run. rewrite H. cbn [negb]. rewrite H. reflexivity. Qed.

Lemma read_missing p w :
  files w !! p = None -> denied w !! p = None ->
  read_names_from_file p w =
    (Return default_names,
     with_files (<[p := Text default_file]> (files w)) w).
Proof. intros H D. loader_run. rewrite H. cbn [negb]. rewrite D. reflexivity. Qed.

Lemma read_missing_denied p w e :
  files w !! p = None -> denied w !! p = Some e ->
  read_names_from_file p w = (Raise e, w).
Proof. intros H D. loader_run. rewrite H. cbn [negb]. rewrite D. reflexivity. Qed.


(** The loader touches the log and the files only. *)
Lemma read_names_from_file_frame p w :
  self (snd (read_names_from_file p w)) = self w /\
  heap (snd (read_names_from_file p w)) = heap w /\
  rng (snd (read_names_from_file p w)) = rng w.
Proof.
  destruct (files w !! p) as [[c|e]|] eqn:E.
  - rewrite (read_text_file p w c E). auto.
  - rewrite (read_unreadable p w e E). auto.
  - destruct (denied w !! p) as [e|] eqn:D.
    + rewrite (read_missing_denied p w e E D). auto.
    + rewrite (read_missing p w E D). auto.
Qed.

(** *** The selector, case by case *)

Lemma fresh_lookup (h : list (list str)) v : (h ++ [v]) !!! length h = v.
Proof. apply list_lookup_total_middle. reflexivity. Qed.

Lemma fresh_insert (h : list (list str)) v v' :
  <[length h := v']> (h ++ [v]) = h ++ [v'].
Proof. rewrite insert_app_r_alt by lia. rewrite Nat.sub_diag. reflexivity. Qed.

Lemma reset_shuffle_run w : reset_shuffle w = (Return tt, reshuffled w).
Proof.
  unfold reset_shuffle, reshuffled, roster. py_run.
  rewrite fresh_lookup, fresh_insert. reflexivity.
Qed.

Lemma queue_reshuffled w :
  queue (reshuffled w) = fst (shuffle (roster w) (rng w)).
Proof. apply fresh_lookup. Qed.

Lemma roster_reshuffled w :
  (names (self w) < length (heap w))%nat -> roster (reshuffled w) = roster w.
Proof.
  intros H. unfold roster, reshuffled. cbn [self heap names].
  apply lookup_total_app_l, H.
Qed.

Lemma getitem_run_ok l i w a :
  0 <= i -> (heap w !!! l) !! Z.to_nat i = Some a ->
  getitem l i w = (Return a, w).
Proof.
  intros H0 E. pose proof (lookup_lt_Some _ _ _ E) as Hlt.
  unfold getitem. py_run.
  rewrite (proj2 (Z.ltb_ge i 0)) by lia.
  rewrite (proj2 (Z.leb_le 0 i)) by lia.
  rewrite (proj2 (Z.ltb_lt i _)) by lia.
  cbn [andb]. rewrite E. reflexivity.
Qed.

Lemma getitem_run_nil l i w :
  heap w !!! l = [] -> getitem l i w = (Raise IndexError, w).
Proof.
  intros E. unfold getitem. py_run. rewrite E. cbn [length].
  destruct (i <? 0) eqn:Hi.
  - rewrite (proj2 (Z.leb_gt _ _)) by lia. reflexivity.
  - rewrite (proj2 (Z.ltb_ge _ _)) by lia. rewrite andb_false_r. reflexivity.
Qed.

(** Empty queue: the sentinel, and nothing changes. *)
Lemma get_next_name_empty w :
  queue w = [] -> get_next_name w = (Return (text "名单为空"), w).
Proof.
  unfold queue, get_next_name. intros E. py_run. rewrite E. reflexivity.
Qed.

(** Cursor inside the queue: the name under it, and the cursor moves on. *)
Lemma get_next_name_take w a :
  0 <= cursor w ->
  queue w !! Z.to_nat (cursor w) = Some a ->
  get_next_name w = (Return a, at_cursor (cursor w + 1) w).
Proof.
  unfold queue, cursor, get_next_name. intros H0 E.
  pose proof (lookup_lt_Some _ _ _ E) as Hlt.
  py_run.
  destruct (heap w !!! shuffled_names (self w)) as [|b q] eqn:Eq;
    [discriminate|]. cbn [truthy negb].
  rewrite Eq. rewrite (proj2 (Z.leb_gt _ _)) by lia.
  rewrite (getitem_run_ok _ _ w a) by (rewrite ?Eq; assumption).
  reflexivity.
Qed.

(** Cursor at or past the end of a non-empty queue: reshuffle, log, then
    take the first name of the new queue. *)
Lemma get_next_name_wrap w :
  queue w <> [] ->
  Z.of_nat (length (queue w)) <= cursor w ->
  get_next_name w =
    let w1 := with_log (log w ++ [reshuffle_record]) (reshuffled w) in
    match queue w1 with
    | [] => (Raise IndexError, w1)
    | a :: _ => (Return a, at_cursor 1 w1)
    end.
Proof.
  unfold queue at 1 2, cursor, get_next_name. intros Hne Hge.
  py_run.
  destruct (heap w !!! shuffled_names (self w)) as [|b q] eqn:Eq;
    [congruence|]. cbn [truthy negb].
  rewrite Eq. rewrite (proj2 (Z.leb_le _ _)) by lia.
  rewrite reset_shuffle_run.
  change (queue _) with (queue (reshuffled w)).
  destruct (queue (reshuffled w)) as [|a v] eqn:Ev.
  - erewrite getitem_run_nil; [reflexivity|exact Ev].
  - erewrite (getitem_run_ok _ _ _ a); [reflexivity|cbn; lia|].
    cbn [heap reshuffled self shuffled_names current_index].
    change (_ !!! _) with (queue (reshuffled w)). rewrite Ev. reflexivity.
Qed.

Lemma get_next_name_times_S n w :
  get_next_name_times (S n) w =
  match get_next_name w with
  | (Return x, w1) =>
    match get_next_name_times n w1 with
    | (Return xs, w2) => (Return (x :: xs), w2)
    | (Raise e, w2) => (Raise e, w2)
    end
  | (Raise e, w1) => (Raise e, w1)
  end.
Proof. reflexivity. Qed.

(** *** Runs of calls *)

Lemma at_cursor_same w : at_cursor (cursor w) w = w.
Proof. destruct w as [[n q i] h g l f d]. reflexivity. Qed.

(** From cursor [k], [n] calls hand out the next [n] names of the queue in
    order, and change nothing but the cursor. *)
Lemma get_next_name_times_take (n : nat) : forall (w : world) (k : nat),
  cursor w = Z.of_nat k ->
  (k + n <= length (queue w))%nat ->
  get_next_name_times n w =
    (Return (take n (drop k (queue w))), at_cursor (Z.of_nat (k + n)) w).
Proof.
  induction n as [|n IH]; intros w k Hk Hle.
  - rewrite Nat.add_0_r, <- Hk, at_cursor_same. reflexivity.
  - destruct (lookup_lt_is_Some_2 (queue w) k ltac:(lia)) as [a Ea].
    rewrite get_next_name_times_S.
    rewrite (get_next_name_take w a) by (rewrite Hk; rewrite ?Nat2Z.id; (lia || assumption)).
    rewrite (IH (at_cursor (cursor w + 1) w) (S k)).
    + change (queue (at_cursor (cursor w + 1) w)) with (queue w).
      rewrite (drop_S _ _ _ Ea). cbn [take].
      unfold at_cursor, with_self. cbn [self heap rng log files denied names shuffled_names].
      replace (Z.of_nat (S k + n)) with (Z.of_nat (k + S n)) by lia.
      reflexivity.
    + unfold cursor in *. cbn. lia.
    + change (queue (at_cursor (cursor w + 1) w)) with (queue w). lia.
Qed.

(** A run of [n] calls followed by one more call is a run of [n + 1]. *)
Lemma get_next_name_times_snoc (n : nat) : forall w out w2 x w3,
  get_next_name_times n w = (Return out, w2) ->
  get_next_name w2 = (Return x, w3) ->
  get_next_name_times (S n) w = (Return (out ++ [x]), w3).
Proof.
  induction n as [|n IH]; intros w out w2 x w3 Hrun Hlast.
  - injection Hrun as <- <-. rewrite get_next_name_times_S, Hlast. reflexivity.
  - rewrite get_next_name_times_S in Hrun |- *.
    destruct (get_next_name w) as [[y|e] wa]; [|discriminate].
    destruct (get_next_name_times n wa) as [[ys|e] wb] eqn:Hn; [|discriminate].
    injection Hrun as <- <-.
    rewrite (IH wa ys wb x w3 Hn Hlast). reflexivity.
Qed.

Lemma reshuffles_snoc l : reshuffles (l ++ [reshuffle_record]) = S (reshuffles l).
Proof.
  unfold reshuffles. rewrite filter_app, length_app.
  rewrite filter_cons_True by reflexivity. cbn. lia.
Qed.

(** *** What holds between calls *)

Lemma selector_ok_extend w w' objs :
  self w' = self w -> heap w' = heap w ++ objs ->
  selector_ok w -> selector_ok w'.
Proof.
  intros Es Eh [H1 H2 H3 H4 H5].
  assert (Er : roster w' = roster w).
  { unfold roster. rewrite Es, Eh. apply lookup_total_app_l, H1. }
  assert (Eq : queue w' = queue w).
  { unfold queue. rewrite Es, Eh. apply lookup_total_app_l, H2. }
  split; unfold cursor_in_range, cursor in *;
    rewrite ?Er, ?Eq, ?Es, ?Eh, ?length_app; (assumption || lia).
Qed.

Lemma selector_ok_same w w' :
  self w' = self w -> heap w' = heap w -> selector_ok w -> selector_ok w'.
Proof.
  intros Es Eh. apply (selector_ok_extend w w' []); [exact Es|].
  rewrite app_nil_r. exact Eh.
Qed.

Lemma selector_ok_reshuffled w :
  (names (self w) < length (heap w))%nat -> selector_ok (reshuffled w).
Proof.
  intros H. split.
  - cbn. rewrite length_app. cbn. lia.
  - cbn. rewrite length_app. cbn. lia.
  - cbn. lia.
  - rewrite queue_reshuffled, roster_reshuffled by assumption.
    apply shuffle_perm.
  - unfold cursor_in_range, cursor. cbn. lia.
Qed.

Lemma selector_ok_at_cursor i w :
  selector_ok w -> 0 <= i <= Z.of_nat (length (queue w)) ->
  selector_ok (at_cursor i w).
Proof. intros [H1 H2 H3 H4 H5] Hi. split; assumption. Qed.

(** With the roster and the queue permutations of each other, a non-empty
    queue is reshuffled into a non-empty queue. *)
Lemma reshuffled_queue_nonempty w :
  selector_ok w -> queue w <> [] -> queue (reshuffled w) <> [].
Proof.
  intros Hok Hne E. apply Hne.
  rewrite queue_reshuffled in E.
  pose proof (shuffle_perm (roster w) (rng w)) as P. rewrite E in P.
  apply Permutation_nil_l in P.
  pose proof (queue_perm w Hok) as Q. rewrite <- P in Q.
  apply Permutation_nil_r in Q. exact Q.
Qed.

Lemma cursor_in_range_next w :
  cursor_in_range w -> cursor_in_range (snd (get_next_name w)).
Proof.
  intros Hr. destruct (queue w) as [|b q] eqn:Eq.
  - rewrite get_next_name_empty by assumption. exact Hr.
  - unfold cursor_in_range in Hr.
    destruct (Z_lt_le_dec (cursor w) (Z.of_nat (length (queue w)))) as [Hlt|Hge].
    + destruct (lookup_lt_is_Some_2 (queue w) (Z.to_nat (cursor w)) ltac:(lia))
        as [a Ea].
      rewrite (get_next_name_take w a) by (assumption || lia).
      unfold cursor_in_range, cursor, queue in *. cbn. lia.
    + rewrite get_next_name_wrap by (assumption || congruence).
      cbv zeta. set (w1 := with_log _ _).
      destruct (queue w1) as [|a v] eqn:Ev; cbn [snd]; unfold cursor_in_range.
      * rewrite Ev. cbn. lia.
      * change (queue (at_cursor 1 w1)) with (queue w1). rewrite Ev. cbn. lia.
Qed.

Lemma selector_ok_next w : selector_ok w -> selector_ok (snd (get_next_name w)).
Proof.
  intros Hok. destruct (queue w) as [|b q] eqn:Eq.
  - rewrite get_next_name_empty by assumption. exact Hok.
  - pose proof (cursor_range w Hok) as Hr. unfold cursor_in_range in Hr.
    destruct (Z_lt_le_dec (cursor w) (Z.of_nat (length (queue w)))) as [Hlt|Hge].
    + destruct (lookup_lt_is_Some_2 (queue w) (Z.to_nat (cursor w)) ltac:(lia))
        as [a Ea].
      rewrite (get_next_name_take w a) by (assumption || lia).
      apply selector_ok_at_cursor; [assumption|lia].
    + rewrite get_next_name_wrap by (assumption || congruence).
      set (w1 := with_log _ _).
      assert (Hok1 : selector_ok w1).
      { apply (selector_ok_same (reshuffled w)); try reflexivity.
        apply selector_ok_reshuffled, Hok. }
      cbv zeta. destruct (queue w1) as [|a v] eqn:Ev; [exact Hok1|].
      apply selector_ok_at_cursor; [assumption|]. rewrite Ev. cbn [length]. lia.
Qed.

Lemma init_ok p w :
  fst (__init__ p w) = Return tt -> selector_ok (snd (__init__ p w)).
Proof.
  unfold __init__, load_names. py_run.
  destruct (read_names_from_file_frame p
    {| self := {| names := length (heap w);
                  shuffled_names := length (heap w ++ [[]]);
                  current_index := 0 |};
       heap := (heap w ++ [[]]) ++ [[]]; rng := rng w; log := log w;
       files := files w; denied := denied w |}) as (Es & Eh & _).
  destruct (read_names_from_file p _) as [[l|e] w1]; [|discriminate].
  cbn [snd] in Es, Eh. intros _.
  rewrite Es. cbn [names shuffled_names current_index].
  rewrite reset_shuffle_run.
  cbn [fst snd].
  eapply selector_ok_same; [| |apply selector_ok_reshuffled]; try reflexivity.
  cbn. rewrite length_app. cbn. lia.
Qed.

Lemma reachable_ok w : reachable w -> selector_ok w.
Proof.
  induction 1 as [p w H|w _ IH|w _ IH|w objs g l f d _ IH].
  - apply init_ok, H.
  - rewrite reset_shuffle_run. apply selector_ok_reshuffled, IH.
  - apply selector_ok_next, IH.
  - eapply selector_ok_extend; [| |exact IH]; reflexivity.
Qed.

(** In a selector, an empty roster means an empty queue. *)
Lemma empty_roster_empty_queue w : reachable w -> roster w = [] -> queue w = [].
Proof.
  intros Hr E. pose proof (queue_perm w (reachable_ok w Hr)) as P.
  rewrite E in P. apply Permutation_nil_r, P.
Qed.

Lemma reachable_times n w :
  reachable w -> reachable (snd (get_next_name_times n w)).
Proof.
  revert w. induction n as [|n IH]; intros w Hr; [exact Hr|].
  rewrite get_next_name_times_S.
  pose proof (reach_next w Hr) as Hn.
  destruct (get_next_name w) as [[x|e] w1]; [|exact Hn].
  pose proof (IH w1 Hn) as Hm.
  destruct (get_next_name_times n w1) as [[xs|e] w2]; exact Hm.
Qed.

Lemma next_keeps_roster w :
  selector_ok w ->
  names (self (snd (get_next_name w))) = names (self w) /\
  roster (snd (get_next_name w)) = roster w.
Proof.
  intros Hok. destruct (queue w) as [|b q] eqn:Eq.
  - rewrite get_next_name_empty by assumption. auto.
  - pose proof (cursor_range w Hok) as Hr. unfold cursor_in_range in Hr.
    destruct (Z_lt_le_dec (cursor w) (Z.of_nat (length (queue w)))) as [Hlt|Hge].
    + destruct (lookup_lt_is_Some_2 (queue w) (Z.to_nat (cursor w)) ltac:(lia))
        as [a Ea].
      rewrite (get_next_name_take w a) by (assumption || lia). auto.
    + rewrite get_next_name_wrap by (assumption || congruence).
      cbv zeta. set (w1 := with_log _ _).
      assert (E : roster w1 = roster w)
        by apply (roster_reshuffled w (names_live w Hok)).
      destruct (queue w1) as [|a v]; cbn [snd]; split; (reflexivity || exact E).
Qed.

(** ** The selector claims *)

(** C1 (amended). Immediately after [reset_shuffle()], a run of N
    consecutive [get_next_name()] calls, N the length of the roster,
    returns N names that are a permutation of the roster: every name is
    returned as often as it occurs in the roster, so exactly once, with no
    duplicate in the run, when the names of the roster are distinct. *)
Theorem C1_cycle_is_permutation (w : world) :
  reachable w ->
  let w1 := snd (reset_shuffle w) in
  exists out w2,
    get_next_name_times (length (roster w1)) w1 = (Return out, w2) /\
    length out = length (roster w1) /\
    out ≡ₚ roster w1 /\
    (NoDup (roster w1) -> NoDup out).
Proof.
  intros Hr. cbv zeta. rewrite reset_shuffle_run. cbn [snd].
  pose proof (selector_ok_reshuffled w (names_live w (reachable_ok w Hr))) as Hok.
  pose proof (queue_perm _ Hok) as P.
  pose proof (Permutation_length P) as L.
  exists (queue (reshuffled w)), (at_cursor (Z.of_nat (length (roster (reshuffled w)))) (reshuffled w)).
  split; [|split; [exact L|split; [exact P|]]].
  - rewrite (get_next_name_times_take _ (reshuffled w) 0) by first [lia | reflexivity].
    rewrite drop_0, take_ge by lia. reflexivity.
  - intros ND. rewrite P. exact ND.
Qed.

(** C2 (amended). With a non-empty roster of N names, the first N calls
    after a reshuffle do not reshuffle (no reshuffle record is logged, no
    list object is created) and leave the cursor at the queue length; the
    N+1-th call reshuffles exactly once and returns, not raises, a name of
    the roster; that name is the text of the sentinel only if the roster
    itself holds that text. *)
Theorem C2_exhaustion_reshuffles_once (w : world) :
  reachable w -> roster w <> [] ->
  let n := length (roster w) in
  let w1 := snd (reset_shuffle w) in
  exists out w2 name w3,
    get_next_name_times n w1 = (Return out, w2) /\
    reshuffles (log w2) = reshuffles (log w1) /\
    length (heap w2) = length (heap w1) /\
    cursor w2 = Z.of_nat (length (queue w2)) /\
    get_next_name w2 = (Return name, w3) /\
    name ∈ roster w /\
    (text "名单为空" ∉ roster w -> name <> text "名单为空") /\
    reshuffles (log w3) = S (reshuffles (log w1)) /\
    length (heap w3) = S (length (heap w1)) /\
    get_next_name_times (S n) w1 = (Return (out ++ [name]), w3).
Proof.
  intros Hr Hne. cbv zeta. rewrite reset_shuffle_run. cbn [snd].
  pose proof (reachable_ok w Hr) as Hok0.
  pose proof (selector_ok_reshuffled w (names_live w Hok0)) as Hok.
  pose proof (roster_reshuffled w (names_live w Hok0)) as Ero.
  pose proof (queue_perm _ Hok) as P. rewrite Ero in P.
  pose proof (Permutation_length P) as L.
  set (w1 := reshuffled w) in *.
  set (w2 := at_cursor (Z.of_nat (length (roster w))) w1).
  assert (Hrun : get_next_name_times (length (roster w)) w1
                 = (Return (queue w1), w2)).
  { rewrite (get_next_name_times_take _ w1 0) by first [lia | reflexivity].
    rewrite drop_0, take_ge by lia. reflexivity. }
  assert (Hok2 : selector_ok w2).
  { apply selector_ok_at_cursor; [exact Hok|lia]. }
  assert (Hq2 : queue w2 <> []).
  { change (queue w2) with (queue w1). intros E. rewrite E in P.
    apply Permutation_nil_l in P. congruence. }
  pose proof (reshuffled_queue_nonempty w2 Hok2 Hq2) as Hq3.
  pose proof (get_next_name_wrap w2 Hq2) as Hwrap.
  cbv zeta in Hwrap.
  set (w3 := with_log (log w2 ++ [reshuffle_record]) (reshuffled w2)) in *.
  change (queue w3) with (queue (reshuffled w2)) in Hwrap.
  destruct (queue (reshuffled w2)) as [|name v] eqn:Ev; [congruence|].
  assert (Hlast : get_next_name w2 = (Return name, at_cursor 1 w3)).
  { apply Hwrap. change (queue w2) with (queue w1).
    change (cursor w2) with (Z.of_nat (length (roster w))). lia. }
  assert (Hin : name ∈ roster w).
  { pose proof (queue_perm _ (selector_ok_reshuffled w2 (names_live w2 Hok2))) as P3.
    rewrite (roster_reshuffled w2 (names_live w2 Hok2)) in P3.
    change (roster w2) with (roster w1) in P3. rewrite Ero in P3.
    rewrite <- P3, Ev. constructor. }
  exists (queue w1), w2, name, (at_cursor 1 w3).
  split; [exact Hrun|]. split; [reflexivity|]. split; [reflexivity|].
  split.
  { change (queue w2) with (queue w1).
    change (cursor w2) with (Z.of_nat (length (roster w))). lia. }
  split; [exact Hlast|]. split; [exact Hin|].
  split; [intros Hnot E; apply Hnot; rewrite <- E; exact Hin|].
  repeat split.
  - apply reshuffles_snoc.
  - cbn. rewrite length_app. cbn. lia.
  - exact (get_next_name_times_snoc _ _ _ _ _ _ Hrun Hlast).
Qed.

(** C3. With an empty roster, every call of [get_next_name()] returns the
    string "名单为空" and none raises: a run of any number of calls returns
    that many sentinels. *)
Theorem C3_empty_roster_sentinel (w : world) (n : nat) :
  reachable w -> roster w = [] ->
  get_next_name_times n w = (Return (replicate n (text "名单为空")), w).
Proof.
  intros Hr E. pose proof (empty_roster_empty_queue w Hr E) as Eq.
  induction n as [|n IH]; [reflexivity|].
  rewrite get_next_name_times_S, (get_next_name_empty w Eq), IH. reflexivity.
Qed.

(** C10. With an empty roster, [get_next_name()] returns the sentinel and
    changes nothing: [self.names], [self.shuffled_names],
    [self.current_index] and the list objects are as before the call (and
    so are the generator, the log and the files). *)
Theorem C10_empty_roster_no_mutation (w : world) :
  reachable w -> roster w = [] ->
  let w' := snd (get_next_name w) in
  fst (get_next_name w) = Return (text "名单为空") /\
  names (self w') = names (self w) /\
  shuffled_names (self w') = shuffled_names (self w) /\
  current_index (self w') = current_index (self w) /\
  heap w' = heap w /\
  w' = w.
Proof.
  intros Hr E. cbv zeta.
  rewrite (get_next_name_empty w (empty_roster_empty_queue w Hr E)).
  repeat split.
Qed.

(** C9. [reset_shuffle()] returns no value, leaves [shuffled_names] a
    permutation of the roster and [current_index] at 0; neither
    [reset_shuffle()] nor [get_next_name()] changes [self.names] or the
    list it refers to. *)
Theorem C9_reset_shuffle_frame (w : world) :
  reachable w ->
  let w1 := snd (reset_shuffle w) in
  let w2 := snd (get_next_name w) in
  fst (reset_shuffle w) = Return tt /\
  queue w1 ≡ₚ roster w /\
  cursor w1 = 0 /\
  names (self w1) = names (self w) /\ roster w1 = roster w /\
  names (self w2) = names (self w) /\ roster w2 = roster w.
Proof.
  intros Hr. pose proof (reachable_ok w Hr) as Hok. cbv zeta.
  rewrite reset_shuffle_run. cbn [fst snd].
  destruct (next_keeps_roster w Hok) as [En Er].
  repeat split.
  - rewrite queue_reshuffled. apply shuffle_perm.
  - apply roster_reshuffled, Hok.
  - exact En.
  - exact Er.
Qed.

(** C8 (amended). The cursor stays in range: [0 <= current_index <=
    len(shuffled_names)] holds once [load_names] has returned, holds after
    every [reset_shuffle()], and every [get_next_name()] call preserves it.
    When the queue is not empty and the cursor equals its length, the next
    [get_next_name()] call first runs [reset_shuffle] (a fresh permutation
    of the roster, cursor 0), logs it, and then consumes the first name of
    the new queue. *)
Theorem C8_cursor_invariant (w : world) :
  (forall p, fst (load_names p w) = Return tt ->
             cursor_in_range (snd (load_names p w))) /\
  cursor_in_range (snd (reset_shuffle w)) /\
  (cursor_in_range w -> cursor_in_range (snd (get_next_name w))) /\
  (reachable w -> queue w <> [] -> cursor w = Z.of_nat (length (queue w)) ->
   let w1 := snd (reset_shuffle w) in
   exists name,
     queue w1 ≡ₚ roster w /\ cursor w1 = 0 /\
     queue w1 !! 0%nat = Some name /\
     get_next_name w =
       (Return name,
        at_cursor 1 (with_log (log w1 ++ [reshuffle_record]) w1))).
Proof.
  split; [|split; [|split]].
  - intros p. unfold load_names. py_run.
    destruct (read_names_from_file p w) as [[l|e] w1]; [|discriminate].
    intros _. rewrite reset_shuffle_run. cbn [snd].
    unfold cursor_in_range, cursor. cbn. lia.
  - rewrite reset_shuffle_run. unfold cursor_in_range, cursor. cbn. lia.
  - apply cursor_in_range_next.
  - intros Hr Hne Hc. cbv zeta. rewrite reset_shuffle_run. cbn [snd].
    pose proof (reachable_ok w Hr) as Hok.
    pose proof (reshuffled_queue_nonempty w Hok Hne) as Hq.
    pose proof (get_next_name_wrap w Hne ltac:(lia)) as Hwrap.
    cbv zeta in Hwrap.
    change (queue (with_log _ (reshuffled w))) with (queue (reshuffled w)) in Hwrap.
    destruct (queue (reshuffled w)) as [|name v] eqn:Ev; [congruence|].
    exists name. repeat split.
    + rewrite <- Ev, queue_reshuffled. apply shuffle_perm.
    + exact Hwrap.
Qed.

(** ** The loader claims *)


(** X20. When the file exists, [read_names_from_file] never raises; if
    opening, reading or decoding it fails, the error is logged and the
    built-in four-name fallback list is returned; if it is read, nothing is
    logged or changed. *)
Theorem read_failure_contained (p : path) (w : world) (nd : node) :
  files w !! p = Some nd ->
  (exists l w', read_names_from_file p w = (Return l, w')) /\
  match nd with
  | Unreadable e =>
    read_names_from_file p w =
      (Return fallback_names, with_log (log w ++ [read_error_record e]) w)
  | Text _ => snd (read_names_from_file p w) = w
  end.
Proof.
  intros H. destruct nd as [c|e].
  - rewrite (read_text_file p w c H). eauto.
  - rewrite (read_unreadable p w e H). eauto.
Qed.

(** C6. When the file exists and is read, [read_names_from_file] returns
    its lines stripped of surrounding whitespace, without the lines that
    are empty after stripping, in the order of the file; it changes
    nothing.  Every name returned is non-empty and neither starts nor ends
    with whitespace. *)
Theorem C6_read_strips_and_drops_blank (p : path) (w : world) (content : str) :
  files w !! p = Some (Text content) ->
  read_names_from_file p w = (Return (trimmed_nonempty_lines content), w) /\
  trimmed_nonempty_lines content `sublist_of` map strip (splitlines content) /\
  Forall trimmed (trimmed_nonempty_lines content).
Proof.
  intros H. split; [|split].
  - rewrite (read_text_file p w content H), comprehension_filter_map.
    reflexivity.
  - apply filter_truthy_sublist.
  - apply filter_truthy_trimmed.
Qed.

(** C7 (amended). Whenever [read_names_from_file] returns, the list is
    non-empty unless the file exists, is read, and holds whitespace only;
    in that case the list is empty. *)
Theorem C7_empty_only_for_blank_file (p : path) (w w' : world) (l : list str) :
  read_names_from_file p w = (Return l, w') ->
  l = [] <-> exists content, files w !! p = Some (Text content) /\ blank content.
Proof.
  intros Hrun. destruct (files w !! p) as [[c|e]|] eqn:E.
  - rewrite (read_text_file p w c E) in Hrun. injection Hrun as <- _.
    rewrite comprehension_nil_iff, splitlines_blank. split.
    + intros B. exists c. auto.
    + intros (c' & [= <-] & B). exact B.
  - rewrite (read_unreadable p w e E) in Hrun. injection Hrun as <- _.
    split; [discriminate|]. intros (c' & [=] & _).
  - destruct (denied w !! p) as [e|] eqn:D.
    + rewrite (read_missing_denied p w e E D) in Hrun. discriminate.
    + rewrite (read_missing p w E D) in Hrun. injection Hrun as <- _.
      split; [discriminate|]. intros (c' & [=] & _).
Qed.

(** ** The claims on the sample worlds *)

Lemma C1_witness :
  exists out w2,
    get_next_name_times (length (roster (snd (reset_shuffle started))))
      (snd (reset_shuffle started)) = (Return out, w2) /\
    length out = length (roster (snd (reset_shuffle started))) /\
    out ≡ₚ roster (snd (reset_shuffle started)) /\
    (NoDup (roster (snd (reset_shuffle started))) -> NoDup out).
Proof.
  apply (C1_cycle_is_permutation started).
  apply reach_new. vm_compute. reflexivity.
Defined.

Lemma C2_witness :
  exists out w2 name w3,
    get_next_name_times (length (roster started)) (snd (reset_shuffle started))
      = (Return out, w2) /\
    reshuffles (log w2) = reshuffles (log (snd (reset_shuffle started))) /\
    length (heap w2) = length (heap (snd (reset_shuffle started))) /\
    cursor w2 = Z.of_nat (length (queue w2)) /\
    get_next_name w2 = (Return name, w3) /\
    name ∈ roster started /\
    (text "名单为空" ∉ roster started -> name <> text "名单为空") /\
    reshuffles (log w3) = S (reshuffles (log (snd (reset_shuffle started)))) /\
    length (heap w3) = S (length (heap (snd (reset_shuffle started)))) /\
    get_next_name_times (S (length (roster started))) (snd (reset_shuffle started))
      = (Return (out ++ [name]), w3).
Proof.
  apply (C2_exhaustion_reshuffles_once started).
  - apply reach_new. vm_compute. reflexivity.
  - vm_compute. discriminate.
Defined.

Lemma C3_witness :
  get_next_name_times 3 started_blank =
    (Return (replicate 3 (text "名单为空")), started_blank).
Proof.
  apply (C3_empty_roster_sentinel started_blank 3).
  - apply reach_new. vm_compute. reflexivity.
  - vm_compute. reflexivity.
Defined.


Lemma read_failure_contained_witness :
  (exists l w', read_names_from_file names_txt boot_unreadable = (Return l, w')) /\
  read_names_from_file names_txt boot_unreadable =
    (Return fallback_names,
     with_log (log boot_unreadable ++ [read_error_record (OSError 21)])
       boot_unreadable).
Proof.
  apply (read_failure_contained names_txt boot_unreadable (Unreadable (OSError 21))).
  vm_compute. reflexivity.
Defined.

Lemma C6_witness :
  read_names_from_file names_txt boot_padded =
    (Return [text "Ann"; text "Bob"; text "Cy"], boot_padded) /\
  [text "Ann"; text "Bob"; text "Cy"]
    `sublist_of` [text "Ann"; []; text "Bob"; []; text "Cy"] /\
  Forall trimmed [text "Ann"; text "Bob"; text "Cy"].
Proof.
  apply (C6_read_strips_and_drops_blank names_txt boot_padded
           (text "  Ann" ++ [0x0A; 0x0A; 0x3000] ++ text "Bob "
            ++ [0x0A; 0x09; 0x0A] ++ text "Cy")).
  vm_compute. reflexivity.
Defined.

Lemma C7_witness :
  @nil str = [] <->
  exists content,
    files boot_blank !! names_txt = Some (Text content) /\ blank content.
Proof.
  apply (C7_empty_only_for_blank_file names_txt boot_blank boot_blank []).
  vm_compute. reflexivity.
Defined.

Lemma C8_witness :
  cursor_in_range (snd (load_names names_txt exhausted)) /\
  cursor_in_range (snd (reset_shuffle exhausted)) /\
  cursor_in_range (snd (get_next_name exhausted)) /\
  exists name,
    queue (snd (reset_shuffle exhausted)) ≡ₚ roster exhausted /\
    cursor (snd (reset_shuffle exhausted)) = 0 /\
    queue (snd (reset_shuffle exhausted)) !! 0%nat = Some name /\
    get_next_name exhausted =
      (Return name,
       at_cursor 1
         (with_log (log (snd (reset_shuffle exhausted)) ++ [reshuffle_record])
            (snd (reset_shuffle exhausted)))).
Proof.
  destruct (C8_cursor_invariant exhausted) as (Hload & Hreset & Hnext & Hwrap).
  split; [apply Hload; vm_compute; reflexivity|].
  split; [exact Hreset|].
  split; [apply Hnext; vm_compute; split; discriminate|].
  apply Hwrap.
  - apply reachable_times, reach_new. vm_compute. reflexivity.
  - vm_compute. discriminate.
  - vm_compute. reflexivity.
Defined.

Lemma C9_witness :
  fst (reset_shuffle started) = Return tt /\
  queue (snd (reset_shuffle started)) ≡ₚ roster started /\
  cursor (snd (reset_shuffle started)) = 0 /\
  names (self (snd (reset_shuffle started))) = names (self started) /\
  roster (snd (reset_shuffle started)) = roster started /\
  names (self (snd (get_next_name started))) = names (self started) /\
  roster (snd (get_next_name started)) = roster started.
Proof.
  apply (C9_reset_shuffle_frame started).
  apply reach_new. vm_compute. reflexivity.
Defined.

Lemma C10_witness :
  fst (get_next_name started_blank) = Return (text "名单为空") /\
  names (self (snd (get_next_name started_blank))) = names (self started_blank) /\
  shuffled_names (self (snd (get_next_name started_blank)))
    = shuffled_names (self started_blank) /\
  current_index (self (snd (get_next_name started_blank)))
    = current_index (self started_blank) /\
  heap (snd (get_next_name started_blank)) = heap started_blank /\
  snd (get_next_name started_blank) = started_blank.
Proof.
  apply (C10_empty_roster_no_mutation started_blank).
  - apply reach_new. vm_compute. reflexivity.
  - vm_compute. reflexivity.
Defined.

(** ** Where the claims, as first stated, fail *)

(** C1 as stated promises a run without duplicates for every roster.  The
    loader keeps repeated lines, so a roster file with the same name on two
    lines gives a cycle that returns that name twice. *)
Lemma C1_counterexample :
  reachable started_twins /\
  roster (snd (reset_shuffle started_twins)) = [text "李华"; text "李华"] /\
  fst (get_next_name_times 2 (snd (reset_shuffle started_twins)))
    = Return [text "李华"; text "李华"] /\
  ~ NoDup [text "李华"; text "李华"].
Proof.
  split; [apply reach_new; vm_compute; reflexivity|].
  split; [vm_compute; reflexivity|].
  split; [vm_compute; reflexivity|].
  intros H. apply NoDup_cons in H as [H _]. apply H. constructor.
Qed.

(** C2 as stated has the N+1-th call return a roster name and not the
    sentinel.  A roster file whose one line is the text of the sentinel
    gives a roster of that one name: after the reshuffle the first call
    uses up the queue, and the second call reshuffles once and returns the
    roster's name, which is the sentinel string. *)
Lemma C2_counterexample :
  reachable started_sentinel /\
  roster started_sentinel = [text "名单为空"] /\
  fst (get_next_name_times 2 (snd (reset_shuffle started_sentinel)))
    = Return [text "名单为空"; text "名单为空"] /\
  reshuffles (log (snd (get_next_name_times 2 (snd (reset_shuffle started_sentinel)))))
    = S (reshuffles (log (snd (get_next_name_times 1 (snd (reset_shuffle started_sentinel)))))).
Proof.
  split; [apply reach_new; vm_compute; reflexivity|].
  split; [vm_compute; reflexivity|].
  split; vm_compute; reflexivity.
Qed.


(** C5. The code does not contain a write failure.  A failure to read an
    existing file is logged and answered with the fallback list; but with
    no roster file and a directory that cannot be written, the [OSError] of
    the write, which is outside the [try], leaves [read_names_from_file]:
    nothing is logged, no list is returned. *)
Theorem C5_write_failure_escapes :
  read_names_from_file names_txt boot_unreadable
    = (Return fallback_names,
       with_log [read_error_record (OSError 21)] boot_unreadable) /\
  files boot_readonly !! names_txt = None /\
  read_names_from_file names_txt boot_readonly
    = (Raise (OSError 13), boot_readonly).
Proof. repeat split; vm_compute; reflexivity. Qed.

(** C7 as stated promises a non-empty list for every path.  A roster file
    of blank lines gives the empty list. *)
Lemma C7_counterexample :
  files boot_blank !! names_txt = Some (Text [0x0A; 0x20; 0x20; 0x0A]) /\
  read_names_from_file names_txt boot_blank = (Return [], boot_blank).
Proof. split; vm_compute; reflexivity. Qed.

(** C8 as stated has every call at [current_index = len(shuffled_names)]
    reshuffle and consume.  With an empty roster the cursor is 0, which is
    the length of the queue, and the call returns the sentinel and leaves
    the world as it is: no new queue (a reshuffle always installs a new list
    object), no reshuffle record, the cursor still 0. *)
Lemma C8_counterexample :
  reachable started_blank /\
  cursor started_blank = Z.of_nat (length (queue started_blank)) /\
  get_next_name started_blank = (Return (text "名单为空"), started_blank) /\
  shuffled_names (self (snd (reset_shuffle started_blank)))
    <> shuffled_names (self started_blank) /\
  cursor (snd (get_next_name started_blank)) = 0.
Proof.
  split; [apply reach_new; vm_compute; reflexivity|].
  split; [vm_compute; reflexivity|].
  split; [vm_compute; reflexivity|].
  split; [vm_compute; discriminate|].
  vm_compute. reflexivity.
Qed.

(** * Further properties of the code *)

(** ** The selector over several cycles *)


Lemma get_next_name_times_app (n k : nat) : forall w out1 w1 out2 w2,
  get_next_name_times n w = (Return out1, w1) ->
  get_next_name_times k w1 = (Return out2, w2) ->
  get_next_name_times (n + k) w = (Return (out1 ++ out2), w2).
Proof.
  induction n as [|n IH]; intros w out1 w1 out2 w2 H1 H2.
  - injection H1 as <- <-. exact H2.
  - cbn [Nat.add]. rewrite get_next_name_times_S in H1 |- *.
    destruct (get_next_name w) as [[y|e] wa]; [|discriminate].
    destruct (get_next_name_times n wa) as [[ys|e] wb] eqn:Hn; [|discriminate].
    injection H1 as <- <-.
    rewrite (IH wa ys wb out2 w2 Hn H2). reflexivity.
Qed.

Lemma cycle_from_fresh w :
  selector_ok w -> queue w <> [] -> cursor w = 0 ->
  exists w',
    get_next_name_times (length (roster w)) w = (Return (queue w), w') /\
    used_up w' /\ roster w' = roster w /\ log w' = log w.
Proof.
  intros Hok Hne Hc.
  pose proof (Permutation_length (queue_perm w Hok)) as L.
  exists (at_cursor (Z.of_nat (length (roster w))) w). split; [|split; [|split]].
  - rewrite (get_next_name_times_take _ w 0) by first [lia | assumption].
    rewrite drop_0, take_ge by lia. reflexivity.
  - split; [apply selector_ok_at_cursor; [assumption|lia]|].
    split; [exact Hne|]. change (queue (at_cursor _ w)) with (queue w).
    unfold cursor. cbn. lia.
  - reflexivity.
  - reflexivity.
Qed.

Lemma cycle_from_used_up w :
  used_up w ->
  exists out w',
    get_next_name_times (length (roster w)) w = (Return out, w') /\
    out ≡ₚ roster w /\ used_up w' /\ roster w' = roster w /\
    reshuffles (log w') = S (reshuffles (log w)).
Proof.
  intros (Hok & Hne & Hc).
  pose proof (reshuffled_queue_nonempty w Hok Hne) as Hq.
  pose proof (get_next_name_wrap w Hne ltac:(lia)) as Hwrap. cbv zeta in Hwrap.
  set (w1 := with_log (log w ++ [reshuffle_record]) (reshuffled w)) in *.
  assert (Hok1 : selector_ok w1).
  { apply (selector_ok_same (reshuffled w)); try reflexivity.
    apply selector_ok_reshuffled, Hok. }
  assert (Ero : roster w1 = roster w)
    by apply (roster_reshuffled w (names_live w Hok)).
  change (queue w1) with (queue (reshuffled w)) in Hwrap.
  pose proof (queue_perm w1 Hok1) as P.
  change (queue w1) with (queue (reshuffled w)) in P.
  rewrite Ero in P. pose proof (Permutation_length P) as L.
  destruct (queue (reshuffled w)) as [|a v] eqn:Ev; [congruence|].
  cbn [length] in L.
  assert (Hq1 : queue (at_cursor 1 w1) = a :: v) by exact Ev.
  destruct (length (roster w)) as [|n] eqn:En; [discriminate|].
  exists (a :: v), (at_cursor (Z.of_nat (1 + n)) (at_cursor 1 w1)).
  split; [|split; [exact P|split; [|split]]].
  - rewrite get_next_name_times_S, Hwrap.
    rewrite (get_next_name_times_take n (at_cursor 1 w1) 1)
      by first [reflexivity | rewrite Hq1; cbn [length]; lia].
    rewrite Hq1. cbn [drop]. rewrite drop_0, take_ge by lia. reflexivity.
  - split; [|split].
    + apply selector_ok_at_cursor; [apply selector_ok_at_cursor; [exact Hok1|]|].
      * change (queue w1) with (queue (reshuffled w)). rewrite Ev. cbn [length]. lia.
      * rewrite Hq1. cbn [length]. lia.
    + change (queue (at_cursor _ (at_cursor 1 w1))) with (queue (reshuffled w)).
      rewrite Ev. discriminate.
    + change (queue (at_cursor _ (at_cursor 1 w1))) with (queue (reshuffled w)).
      rewrite Ev. unfold cursor. cbn. lia.
  - exact Ero.
  - apply reshuffles_snoc.
Qed.

Lemma cycles_from_used_up (m : nat) : forall w,
  used_up w ->
  exists out w',
    get_next_name_times (m * length (roster w)) w = (Return out, w') /\
    out ≡ₚ concat (replicate m (roster w)) /\ used_up w' /\
    roster w' = roster w /\
    reshuffles (log w') = (reshuffles (log w) + m)%nat.
Proof.
  induction m as [|m IH]; intros w Hu.
  - exists [], w. split; [reflexivity|]. split; [reflexivity|].
    split; [exact Hu|]. split; [reflexivity|lia].
  - destruct (cycle_from_used_up w Hu) as (o1 & w1 & R1 & P1 & U1 & E1 & L1).
    destruct (IH w1 U1) as (o2 & w2 & R2 & P2 & U2 & E2 & L2).
    rewrite E1 in R2, P2.
    exists (o1 ++ o2), w2. split; [|split; [|split; [|split]]].
    + cbn [Nat.mul]. apply (get_next_name_times_app _ _ _ _ _ _ _ R1 R2).
    + cbn [replicate concat]. rewrite P1, P2. reflexivity.
    + exact U2.
    + congruence.
    + lia.
Qed.

(** X2. With a non-empty roster of N names, the m N calls that follow a
    [reset_shuffle()] return every name exactly m times as often as it
    occurs in the roster, and reshuffle m - 1 times in all. *)
Theorem cycles_are_fair (w : world) (m : nat) :
  reachable w -> roster w <> [] ->
  let w1 := snd (reset_shuffle w) in
  exists out w2,
    get_next_name_times (m * length (roster w)) w1 = (Return out, w2) /\
    out ≡ₚ concat (replicate m (roster w)) /\
    reshuffles (log w2) = (reshuffles (log w1) + (m - 1))%nat.
Proof.
  intros Hr Hne. cbv zeta. rewrite reset_shuffle_run. cbn [snd].
  pose proof (reachable_ok w Hr) as Hok0.
  pose proof (selector_ok_reshuffled w (names_live w Hok0)) as Hok.
  pose proof (roster_reshuffled w (names_live w Hok0)) as Ero.
  destruct m as [|m].
  { exists [], (reshuffled w). split; [reflexivity|].
    split; [reflexivity|lia]. }
  assert (Hq : queue (reshuffled w) <> []).
  { intros E. pose proof (queue_perm _ Hok) as P. rewrite E, Ero in P.
    apply Permutation_nil_l in P. congruence. }
  destruct (cycle_from_fresh (reshuffled w) Hok Hq eq_refl)
    as (w1 & R1 & U1 & E1 & L1).
  destruct (cycles_from_used_up m w1 U1) as (o2 & w2 & R2 & P2 & U2 & E2 & L2).
  rewrite E1, Ero in R2, P2. rewrite Ero in R1.
  exists (queue (reshuffled w) ++ o2), w2. split; [|split].
  - cbn [Nat.mul]. apply (get_next_name_times_app _ _ _ _ _ _ _ R1 R2).
  - cbn [replicate concat]. rewrite P2.
    pose proof (queue_perm _ Hok) as P. rewrite Ero in P. rewrite P. reflexivity.
  - rewrite L2, L1. lia.
Qed.

Lemma next_name_from_roster (w : world) :
  reachable w ->
  exists nm w',
    get_next_name w = (Return nm, w') /\
    (roster w = [] -> nm = text "名单为空") /\
    (roster w <> [] -> nm ∈ roster w).
Proof.
  intros Hr. pose proof (reachable_ok w Hr) as Hok.
  pose proof (queue_perm w Hok) as P.
  destruct (queue w) as [|b q] eqn:Eq.
  - exists (text "名单为空"), w. split; [apply get_next_name_empty, Eq|].
    split; [reflexivity|]. intros Hne. apply Permutation_nil_l in P. congruence.
  - assert (Hqne : queue w <> []) by congruence.
    assert (Hrne : roster w = [] -> False).
    { intros E. rewrite E in P. apply Permutation_nil_r in P. discriminate. }
    pose proof (cursor_range w Hok) as Hc. unfold cursor_in_range in Hc.
    destruct (Z_lt_le_dec (cursor w) (Z.of_nat (length (queue w)))) as [Hlt|Hge].
    + destruct (lookup_lt_is_Some_2 (queue w) (Z.to_nat (cursor w)) ltac:(lia))
        as [a Ea].
      exists a, (at_cursor (cursor w + 1) w).
      split; [apply get_next_name_take; [lia|exact Ea]|].
      split; [intros E; destruct (Hrne E)|]. intros _.
      rewrite <- Eq in P. rewrite <- P. apply list_elem_of_lookup. eauto.
    + pose proof (reshuffled_queue_nonempty w Hok Hqne) as Hq.
      pose proof (get_next_name_wrap w Hqne Hge) as Hwrap. cbv zeta in Hwrap.
      change (queue (with_log _ (reshuffled w))) with (queue (reshuffled w)) in Hwrap.
      pose proof (queue_perm _ (selector_ok_reshuffled w (names_live w Hok))) as P1.
      rewrite (roster_reshuffled w (names_live w Hok)) in P1.
      destruct (queue (reshuffled w)) as [|a v] eqn:Ev; [congruence|].
      eexists a, _. split; [exact Hwrap|].
      split; [intros E; destruct (Hrne E)|]. intros _.
      rewrite <- P1. constructor.
Qed.

(** X3. At any time, the calls that remain in the cycle hand out the rest
    of the queue in queue order, and change nothing but the cursor: no
    draw from the generator, no log record, no new list. *)
Theorem rest_of_cycle_in_order (w : world) :
  reachable w ->
  let k := Z.to_nat (cursor w) in
  get_next_name_times (length (queue w) - k) w =
    (Return (drop k (queue w)), at_cursor (Z.of_nat (length (queue w))) w).
Proof.
  intros Hr. cbv zeta. pose proof (reachable_ok w Hr) as Hok.
  pose proof (cursor_range w Hok) as Hc. unfold cursor_in_range in Hc.
  rewrite (get_next_name_times_take _ w (Z.to_nat (cursor w))) by lia.
  rewrite take_ge by (rewrite length_drop; lia).
  replace (Z.to_nat (cursor w) + (length (queue w) - Z.to_nat (cursor w)))%nat
    with (length (queue w)) by lia.
  reflexivity.
Qed.

(** ** The loader and the constructor *)


Lemma single_line_nil : single_line [].
Proof. constructor. Qed.

Lemma single_line_cons c s : single_line (c :: s) <-> islinebreak c = false /\ single_line s.
Proof. unfold single_line. rewrite Forall_cons. reflexivity. Qed.

Lemma single_line_reverse s : single_line (reverse s) <-> single_line s.
Proof.
  unfold single_line. rewrite !Forall_forall.
  setoid_rewrite elem_of_reverse. reflexivity.
Qed.

Lemma single_line_app s t : single_line (s ++ t) <-> single_line s /\ single_line t.
Proof. apply Forall_app. Qed.

Lemma splitlines_from_single_step s :
  (forall cur, single_line cur -> Forall single_line (splitlines_from cur s)) /\
  (forall c cur, single_line cur -> Forall single_line (splitlines_from cur (c :: s))).
Proof.
  assert (Hnil : forall cur, single_line cur -> Forall single_line (splitlines_from cur [])).
  { intros cur H. cbn. destruct cur; [constructor|].
    apply Forall_singleton, single_line_reverse, H. }
  induction s as [|a s [IH1 IH2]].
  - split; [exact Hnil|]. intros c cur H. rewrite splitlines_from_cons.
    destruct (islinebreak c) eqn:Hc.
    + constructor; [apply single_line_reverse, H|apply Hnil, single_line_nil].
    + apply Hnil, single_line_cons. auto.
  - split; [exact (IH2 a)|]. intros c cur H. rewrite splitlines_from_cons.
    destruct (islinebreak c) eqn:Hc.
    + constructor; [apply single_line_reverse, H|].
      destruct ((c =? 13) && (a =? 10)); [apply IH1|apply IH2]; apply single_line_nil.
    + apply IH2, single_line_cons. auto.
Qed.

Lemma splitlines_single_line s : Forall single_line (splitlines s).
Proof. apply (proj1 (splitlines_from_single_step s)), single_line_nil. Qed.

Lemma strip_single_line s : single_line s -> single_line (strip s).
Proof.
  intros H. unfold strip.
  destruct (lstrip_split s) as (ws & E & _).
  destruct (rstrip_split (lstrip s)) as (ws' & E' & _).
  rewrite E in H. apply single_line_app in H as [_ H].
  rewrite E' in H. apply single_line_app in H as [H _]. exact H.
Qed.

Lemma trimmed_strip n : trimmed n -> strip n = n.
Proof.
  intros [Hne Hc].
  assert (L : lstrip n = n).
  { destruct n as [|c n]; [reflexivity|]. cbn [lstrip].
    rewrite (Hc c) by (left; reflexivity). reflexivity. }
  unfold strip. rewrite L. unfold rstrip.
  assert (R : lstrip (reverse n) = reverse n).
  { destruct (reverse n) as [|c r] eqn:E; [reflexivity|]. cbn [lstrip].
    rewrite (Hc c); [reflexivity|]. right.
    rewrite <- (reverse_involutive n), last_reverse, E. reflexivity. }
  rewrite R. apply reverse_involutive.
Qed.

Lemma comprehension_trimmed (l : list str) :
  Forall trimmed l ->
  map strip (List.filter (fun name => truthy (strip name)) l) = l.
Proof.
  induction 1 as [|n l Hn _ IH]; [reflexivity|].
  cbn [List.filter]. rewrite (trimmed_strip n Hn).
  destruct n as [|c n]; [destruct Hn as [Hn _]; congruence|].
  cbn [truthy map]. rewrite (trimmed_strip (c :: n) Hn), IH. reflexivity.
Qed.

Lemma splitlines_from_line x : forall cur s,
  single_line x ->
  splitlines_from cur (x ++ s) = splitlines_from (reverse x ++ cur) s.
Proof.
  induction x as [|c x IH]; intros cur s H; [reflexivity|].
  apply single_line_cons in H as [Hc H].
  cbn [app]. rewrite splitlines_from_cons, Hc, (IH (c :: cur) s H).
  rewrite reverse_cons, <- app_assoc. reflexivity.
Qed.

Lemma splitlines_join (l : list str) :
  Forall (fun n => n <> [] /\ single_line n) l ->
  splitlines (join newline l) = l.
Proof.
  induction 1 as [|p ps [Hne Hp] Hps IH]; [reflexivity|].
  unfold splitlines in *. destruct ps as [|q ps].
  - cbn [join]. rewrite <- (app_nil_r p) at 1.
    rewrite (splitlines_from_line p [] [] Hp), app_nil_r. cbn [splitlines_from].
    destruct (reverse p) eqn:E.
    + apply (f_equal reverse) in E. rewrite reverse_involutive in E.
      cbn in E. congruence.
    + rewrite <- E, reverse_involutive. reflexivity.
  - change (join newline (p :: q :: ps)) with (p ++ 10 :: join newline (q :: ps)).
    rewrite (splitlines_from_line p [] _ Hp), app_nil_r.
    rewrite splitlines_from_cons. change (islinebreak 10) with true. cbv iota.
    rewrite reverse_involutive. f_equal.
    set (t := join newline (q :: ps)) in *. clearbody t.
    destruct t as [|c' r]; exact IH.
Qed.

Lemma loaded_names_clean (c : str) :
  Forall (fun n => n <> [] /\ single_line n) (trimmed_nonempty_lines c) /\
  Forall trimmed (trimmed_nonempty_lines c).
Proof.
  split; [|apply filter_truthy_trimmed].
  unfold trimmed_nonempty_lines.
  pose proof (splitlines_single_line c) as H.
  induction H as [|l ls Hl _ IH]; [constructor|].
  cbn [map List.filter]. destruct (strip l) eqn:E; cbn [truthy]; [exact IH|].
  constructor; [|exact IH]. rewrite <- E.
  split; [congruence|apply strip_single_line, Hl].
Qed.


Lemma clean_roster_lines (c : str) : clean_roster (trimmed_nonempty_lines c).
Proof.
  destruct (loaded_names_clean c) as [H1 H2]. unfold clean_roster.
  induction H2 as [|n l Hn _ IH]; [constructor|].
  apply Forall_cons in H1 as [[_ Hs] H1]. constructor; auto.
Qed.

Lemma loader_clean (p : path) (w w' : world) (l : list str) :
  read_names_from_file p w = (Return l, w') -> clean_roster l.
Proof.
  intros Hrun. destruct (files w !! p) as [[c|e]|] eqn:E.
  - rewrite (read_text_file p w c E), comprehension_filter_map in Hrun.
    injection Hrun as <- _. apply clean_roster_lines.
  - rewrite (read_unreadable p w e E) in Hrun. injection Hrun as <- _.
    replace fallback_names
      with (trimmed_nonempty_lines (join newline fallback_names))
      by (vm_compute; reflexivity).
    apply clean_roster_lines.
  - destruct (denied w !! p) as [e|] eqn:D.
    + rewrite (read_missing_denied p w e E D) in Hrun. discriminate.
    + rewrite (read_missing p w E D) in Hrun. injection Hrun as <- _.
      replace default_names with (trimmed_nonempty_lines default_file)
        by (vm_compute; reflexivity).
      apply clean_roster_lines.
Qed.

(** X6. A roster that the loader returned, written one name per line as
    the loader writes its defaults, loads back as the same roster, and the
    file is left as it is. *)
Theorem roster_file_round_trip (p q : path) (w w' w2 : world) (l : list str) :
  read_names_from_file p w = (Return l, w') ->
  files w2 !! q = Some (Text (join newline l)) ->
  read_names_from_file q w2 = (Return l, w2).
Proof.
  intros Hrun Hq. pose proof (loader_clean p w w' l Hrun) as Hc.
  rewrite (read_text_file q w2 _ Hq), splitlines_join.
  - rewrite comprehension_trimmed; [reflexivity|].
    eapply Forall_impl; [exact Hc|]. intros n [Ht _]. exact Ht.
  - eapply Forall_impl; [exact Hc|]. intros n [[Hne _] Hs]. auto.
Qed.

Lemma read_names_from_file_same_files p w v :
  files v = files w -> denied v = denied w ->
  fst (read_names_from_file p v) = fst (read_names_from_file p w).
Proof.
  intros Ef Ed. destruct (files w !! p) as [[c|e]|] eqn:E.
  - rewrite (read_text_file p w c E), (read_text_file p v c) by (rewrite Ef; exact E).
    reflexivity.
  - rewrite (read_unreadable p w e E), (read_unreadable p v e) by (rewrite Ef; exact E).
    reflexivity.
  - destruct (denied w !! p) as [e|] eqn:D.
    + rewrite (read_missing_denied p w e E D),
        (read_missing_denied p v e) by (rewrite ?Ef, ?Ed; assumption).
      reflexivity.
    + rewrite (read_missing p w E D), (read_missing p v)
        by (rewrite ?Ef, ?Ed; assumption).
      reflexivity.
Qed.

Lemma init_loads_roster (p : path) (w : world) :
  match fst (read_names_from_file p w) with
  | Return l =>
    let w' := snd (__init__ p w) in
    fst (__init__ p w) = Return tt /\
    roster w' = l /\ queue w' ≡ₚ l /\ cursor w' = 0 /\
    last (log w') =
      Some (INFO, WithInt (text "随机点名：加载了 ") (Z.of_nat (length l)) (text " 个名字"))
  | Raise e => fst (__init__ p w) = Raise e
  end.
Proof.
  set (v := {| self := {| names := length (heap w);
                  shuffled_names := length (heap w ++ [[]]);
                  current_index := 0 |};
       heap := (heap w ++ [[]]) ++ [[]]; rng := rng w; log := log w;
       files := files w; denied := denied w |}).
  rewrite <- (read_names_from_file_same_files p w v) by reflexivity.
  unfold __init__, load_names. py_run. fold v.
  destruct (read_names_from_file_frame p v) as (Es & Eh & _).
  destruct (read_names_from_file p v) as [[l|e] w1]; cbn [fst snd] in *; [|reflexivity].
  rewrite reset_shuffle_run. cbn [fst snd].
  match goal with
  | |- context [reshuffled ?x] => set (u := x)
  end.
  assert (Hl : (names (self u) < length (heap u))%nat)
    by (cbn; rewrite length_app; cbn; lia).
  assert (Er : roster (reshuffled u) = l).
  { rewrite roster_reshuffled by exact Hl. apply fresh_lookup. }
  pose proof (queue_perm _ (selector_ok_reshuffled u Hl)) as P. rewrite Er in P.
  split; [reflexivity|]. split; [exact Er|]. split; [exact P|].
  split; [reflexivity|].
  cbn [log]. rewrite last_snoc. change (heap _ !!! _) with (roster (reshuffled u)).
  rewrite Er. reflexivity.
Qed.

(** ** The selector behind the window *)

Lemma same_selector_views v w :
  same_selector v w -> roster v = roster w /\ queue v = queue w /\ cursor v = cursor w.
Proof. intros (Es & Eh & _). unfold roster, queue, cursor. rewrite Es, Eh. auto. Qed.

Lemma same_selector_reshuffled v w :
  same_selector v w -> same_selector (reshuffled v) (reshuffled w).
Proof.
  intros H. destruct (same_selector_views v w H) as (Er & _ & _).
  destruct H as (Es & Eh & Eg). unfold same_selector, reshuffled. cbn.
  rewrite Es, Eh, Eg, Er. auto.
Qed.

Lemma same_selector_refl w : same_selector w w.
Proof. repeat split. Qed.

Lemma same_selector_trans u v w :
  same_selector u v -> same_selector v w -> same_selector u w.
Proof. intros (?&?&?) (?&?&?). repeat split; congruence. Qed.

Lemma same_selector_with_log l w : same_selector (with_log l w) w.
Proof. repeat split. Qed.

Lemma get_next_name_same_selector v w :
  selector_ok w -> same_selector v w ->
  fst (get_next_name v) = fst (get_next_name w) /\
  same_selector (snd (get_next_name v)) (snd (get_next_name w)).
Proof.
  intros Hok H. destruct (same_selector_views v w H) as (Er & Eq & Ec).
  pose proof (cursor_range w Hok) as Hc. unfold cursor_in_range in Hc.
  destruct (queue w) as [|b q] eqn:Eqw.
  - rewrite (get_next_name_empty v), (get_next_name_empty w) by congruence. auto.
  - destruct (Z_lt_le_dec (cursor w) (Z.of_nat (length (queue w)))) as [Hlt|Hge].
    + destruct (lookup_lt_is_Some_2 (queue w) (Z.to_nat (cursor w)) ltac:(lia))
        as [a Ea].
      rewrite (get_next_name_take w a) by (assumption || lia).
      rewrite (get_next_name_take v a) by (rewrite ?Ec, ?Eq, <- ?Eqw; (assumption || lia)).
      split; [reflexivity|]. destruct H as (Es & Eh & Eg).
      unfold same_selector, cursor. cbn. rewrite Es, Eh, Eg. auto.
    + rewrite (get_next_name_wrap w) by (assumption || congruence).
      rewrite (get_next_name_wrap v) by (rewrite ?Ec, ?Eq; (congruence || rewrite <- Eqw; lia)).
      cbv zeta. pose proof (same_selector_reshuffled v w H) as Hs.
      destruct (same_selector_views _ _ Hs) as (_ & Eq1 & _).
      change (queue (with_log _ (reshuffled v))) with (queue (reshuffled v)).
      change (queue (with_log _ (reshuffled w))) with (queue (reshuffled w)).
      rewrite Eq1. destruct Hs as (Es & Eh & Eg).
      destruct (queue (reshuffled w)); split; try reflexivity;
        unfold same_selector, at_cursor, with_self, with_log;
        cbn [snd self heap rng names shuffled_names current_index];
        rewrite ?Es, ?Eh, ?Eg; auto.
Qed.

Ltac ui_run :=
  cbv [ubind uret utry ugets umodify ulog lift move shown_name
       NameResultDialog_new dialog_show update_content
       with_sys with_floating_window with_window_visible with_window_pos
       with_drag_pos with_mouse_press_pos with_result_dialog
       logger modify];
  cbn [sys floating_window window_visible window_pos drag_pos
       mouse_press_pos result_dialog screen_size
       dialog_name label_text dialog_pos dialog_visible fst snd].

Lemma reachable_with_log l w : reachable w -> reachable (with_log l w).
Proof.
  intros H. pose proof (reach_env w [] (rng w) l (files w) (denied w) H) as R.
  rewrite app_nil_r in R. exact R.
Qed.

(** The call of [get_next_name] that a handler makes after logging. *)
Lemma get_next_name_after_log l w :
  reachable w ->
  exists nm w' v',
    get_next_name w = (Return nm, w') /\
    get_next_name (with_log l w) = (Return nm, v') /\
    same_selector v' w' /\ reachable v' /\
    (roster w <> [] -> nm ∈ roster w).
Proof.
  intros Hr. destruct (next_name_from_roster w Hr) as (nm & w' & Hn & _ & Hin).
  destruct (get_next_name_same_selector (with_log l w) w (reachable_ok w Hr)
              (same_selector_with_log l w)) as [Ef Es].
  pose proof (reach_next _ (reachable_with_log l w Hr)) as Hr'.
  destruct (get_next_name (with_log l w)) as [r v'].
  rewrite Hn in Ef, Es. cbn [fst snd] in *. subst r.
  exists nm, w', v'. auto.
Qed.

(** X11. Without a result dialog, [reroll_name] draws no name: it returns,
    the selector is as before and there is still no dialog. *)
Theorem reroll_without_dialog (a : gui) :
  result_dialog a = None ->
  let a' := snd (reroll_name a) in
  fst (reroll_name a) = Return tt /\ result_dialog a' = None /\
  same_selector (sys a') (sys a).
Proof.
  intros E. cbv zeta. unfold reroll_name. ui_run. rewrite E. repeat split.
Qed.

(** X12. With a result dialog, [reroll_name] draws the next name of the
    selector and puts it in the dialog, name and label alike; the dialog
    stays where and as visible as it was. *)
Theorem reroll_shows_next_name (a : gui) (d : NameResultDialog) :
  reachable (sys a) -> result_dialog a = Some d ->
  let a' := snd (reroll_name a) in
  exists nm w',
    get_next_name (sys a) = (Return nm, w') /\
    fst (reroll_name a) = Return tt /\
    result_dialog a' =
      Some {| dialog_name := nm; label_text := nm;
              dialog_pos := dialog_pos d;
              dialog_visible := dialog_visible d |} /\
    same_selector (sys a') w' /\ reachable (sys a').
Proof.
  intros Hr E. cbv zeta. unfold reroll_name. ui_run. rewrite E.
  match goal with |- context [get_next_name ?v] =>
    destruct (get_next_name_after_log (log v) (sys a) Hr)
      as (nm & w' & v' & Hn & Hv & Hs & Hr' & _);
    change v with (with_log (log v) (sys a)); rewrite Hv
  end.
  cbn [fst snd]. exists nm, w'. split; [exact Hn|]. split; [reflexivity|].
  split; [reflexivity|]. split; [|apply (reachable_with_log _ v' Hr')].
  eapply same_selector_trans; [|exact Hs]. repeat split.
Qed.


(** What [show_random_name] does in a world where a selector exists. *)
Lemma show_random_name_run (a : gui) :
  reachable (sys a) ->
  exists nm w' d,
    get_next_name (sys a) = (Return nm, w') /\
    fst (show_random_name a) = Return tt /\
    result_dialog (snd (show_random_name a)) = Some d /\
    dialog_name d = nm /\ label_text d = nm /\ dialog_visible d = true /\
    (roster (sys a) <> [] -> nm ∈ roster (sys a)) /\
    same_selector (sys (snd (show_random_name a))) w' /\
    reachable (sys (snd (show_random_name a))) /\
    window_pos (snd (show_random_name a)) = window_pos a /\
    (forall d0, result_dialog a = Some d0 -> dialog_pos d = dialog_pos d0).
Proof.
  intros Hr.
  destruct (get_next_name_after_log (log (sys a)) (sys a) Hr)
    as (nm & w' & _ & Hn & _ & _ & _ & Hin).
  pose proof (reach_next (sys a) Hr) as Hr'. rewrite Hn in Hr'. cbn [snd] in Hr'.
  unfold show_random_name. ui_run. rewrite Hn. cbn [fst snd].
  destruct (result_dialog a) as [d0|]; cbn [fst snd];
    (eexists nm, w', _; split; [reflexivity|]; split; [reflexivity|];
     split; [reflexivity|]; repeat split; try exact Hin;
     try (repeat apply reachable_with_log; exact Hr')).
  - intros d1 [= <-]. reflexivity.
  - intros d1 [=].
Qed.

Lemma show_random_name_reachable (a : gui) :
  reachable (sys a) -> reachable (sys (snd (show_random_name a))).
Proof.
  intros Hr.
  destruct (show_random_name_run a Hr) as (nm & w' & d & H).
  apply H.
Qed.

(** The dialog that [show_random_name] leaves: a new one, centred on the
    screen, if there was none; the one there was, where it was, otherwise. *)
Lemma show_random_name_dialog (a : gui) :
  reachable (sys a) ->
  exists nm w',
    get_next_name (sys a) = (Return nm, w') /\
    result_dialog (snd (show_random_name a)) =
      Some {| dialog_name := nm; label_text := nm;
              dialog_pos := match result_dialog a with
                            | Some d0 => dialog_pos d0
                            | None => centre a
                            end;
              dialog_visible := true |}.
Proof.
  intros Hr.
  destruct (next_name_from_roster (sys a) Hr) as (nm & w' & Hn & _).
  exists nm, w'. split; [exact Hn|].
  unfold show_random_name, centre. ui_run. rewrite Hn. cbn [fst snd].
  destruct (result_dialog a) as [d0|]; reflexivity.
Qed.

(** X10. [show_random_name] draws the next name of the selector and shows
    it: afterwards there is a visible result dialog whose name and label
    are the name that [get_next_name] returned, a roster name when the
    roster is not empty.  If there was no dialog, it is a new one, centred
    on the screen; if there was one, it is that one, where it was. *)
Theorem show_random_name_displays (a : gui) :
  reachable (sys a) ->
  let a' := snd (show_random_name a) in
  exists nm w',
    get_next_name (sys a) = (Return nm, w') /\
    result_dialog a' =
      Some {| dialog_name := nm; label_text := nm;
              dialog_pos := match result_dialog a with
                            | Some d0 => dialog_pos d0
                            | None => centre a
                            end;
              dialog_visible := true |} /\
    (roster (sys a) <> [] -> nm ∈ roster (sys a)) /\
    same_selector (sys a') w' /\ reachable (sys a').
Proof.
  intros Hr. cbv zeta.
  destruct (show_random_name_run a Hr)
    as (nm & w' & d & Hn & _ & _ & _ & _ & _ & Hin & Hs & Hr' & _).
  destruct (show_random_name_dialog a Hr) as (nm1 & w1 & Hn1 & Hd).
  rewrite Hn in Hn1. injection Hn1 as <- <-.
  exists nm, w'. auto.
Qed.

(** X13. A left-button release within Manhattan distance 15 of the press
    is a click: the next name of the selector is drawn and shown in the
    result dialog, and the floating window stays where it is. *)
Theorem release_within_15_is_a_click (a : gui) (event : QMouseEvent) :
  reachable (sys a) ->
  button event = LeftButton ->
  manhattanLength (QPoint_sub (globalPos event) (mouse_press_pos a)) <= 15 ->
  let a' := snd (mouseReleaseEvent event a) in
  exists nm w' d,
    get_next_name (sys a) = (Return nm, w') /\
    fst (mouseReleaseEvent event a) = Return tt /\
    same_selector (sys a') w' /\
    result_dialog a' = Some d /\ label_text d = nm /\ dialog_visible d = true /\
    window_pos a' = window_pos a.
Proof.
  intros Hr Eb Ed. cbv zeta. unfold mouseReleaseEvent. rewrite Eb.
  change (LeftButton =? LeftButton) with true. cbv iota.
  set (dist := manhattanLength (QPoint_sub (globalPos event) (mouse_press_pos a))) in *.
  cbv [ubind ugets]. cbn [fst snd]. fold dist.
  cbv [ulog lift logger modify]. cbn [fst snd sys].
  rewrite (proj2 (Z.leb_le dist 15) Ed). cbv [with_sys]. cbn [sys fst snd].
  match goal with |- context [show_random_name ?b] => set (a1 := b) end.
  assert (Hr1 : reachable (sys a1))
    by (repeat apply reachable_with_log; exact Hr).
  destruct (show_random_name_run a1 Hr1)
    as (nm & w1 & d & Hn & Hf & Hd & _ & Hl & Hv & _ & Hs & _ & Hp & _).
  destruct (next_name_from_roster (sys a) Hr) as (nm0 & w' & Hn0 & _).
  destruct (get_next_name_same_selector (sys a1) (sys a) (reachable_ok _ Hr))
    as [Ef Es]; [repeat split|].
  rewrite Hn, Hn0 in Ef, Es. cbn [fst snd] in Ef, Es. injection Ef as ->.
  exists nm0, w', d. split; [exact Hn0|]. split; [exact Hf|].
  split; [exact (same_selector_trans _ _ _ Hs Es)|]. auto.
Qed.

(** X14. A release farther than 15 from the press, or of another button,
    draws nothing: the selector, the result dialog and the window position
    are as before. *)
Theorem release_elsewhere_draws_nothing (a : gui) (event : QMouseEvent) :
  button event <> LeftButton \/
  15 < manhattanLength (QPoint_sub (globalPos event) (mouse_press_pos a)) ->
  let a' := snd (mouseReleaseEvent event a) in
  fst (mouseReleaseEvent event a) = Return tt /\
  same_selector (sys a') (sys a) /\
  result_dialog a' = result_dialog a /\
  window_pos a' = window_pos a.
Proof.
  intros H. cbv zeta. unfold mouseReleaseEvent.
  destruct (button event =? LeftButton) eqn:Eb.
  - apply Z.eqb_eq in Eb. destruct H as [H|H]; [congruence|].
    set (dist := manhattanLength (QPoint_sub (globalPos event) (mouse_press_pos a))) in *.
    cbv [ubind ugets]. cbn [fst snd]. fold dist.
    cbv [ulog lift logger modify]. cbn [fst snd sys].
    rewrite (proj2 (Z.leb_gt dist 15) H). cbn [fst snd]. repeat split.
  - cbv [uret]. cbn [fst snd]. repeat split.
Qed.

Lemma mouse_moves_run (moves : list QMouseEvent) : forall (a : gui) (last : QMouseEvent),
  Forall (fun e => buttons e = LeftButton) (moves ++ [last]) ->
  mouse_moves (moves ++ [last]) a =
    (Return tt, with_window_pos (QPoint_sub (globalPos last) (drag_pos a)) a).
Proof.
  induction moves as [|e moves IH]; intros a last H.
  - cbn [app] in H. rewrite Forall_singleton in H.
    cbn [app mouse_moves]. unfold mouseMoveEvent.
    rewrite H. cbn. reflexivity.
  - cbn [app] in H. rewrite Forall_cons in H. destruct H as [He H].
    cbn [app mouse_moves].
    unfold ubind at 1. unfold mouseMoveEvent at 1. rewrite He.
    change (LeftButton =? LeftButton) with true. cbv iota.
    cbv [ubind ugets move umodify]. rewrite (IH _ last H). reflexivity.
Qed.

(** X15. Dragging: after a left-button press and any number of moves with
    the left button held, the pointer is over the same point of the window
    as at the press; no name is drawn. *)
Theorem drag_keeps_the_grab_point (a : gui) (press last : QMouseEvent)
    (moves : list QMouseEvent) :
  button press = LeftButton ->
  Forall (fun e => buttons e = LeftButton) (moves ++ [last]) ->
  let a' := snd (ubind (mousePressEvent press)
                   (fun _ => mouse_moves (moves ++ [last])) a) in
  QPoint_sub (globalPos last) (window_pos a')
    = QPoint_sub (globalPos press) (window_pos a) /\
  sys a' = sys a /\ result_dialog a' = result_dialog a.
Proof.
  intros Hp Hm. cbv zeta. unfold ubind at 1, mousePressEvent. rewrite Hp.
  change (LeftButton =? LeftButton) with true. cbv iota.
  cbv [ubind ugets umodify]. rewrite (mouse_moves_run moves _ last Hm).
  cbn. split; [|auto]. unfold QPoint_sub. cbn. f_equal; lia.
Qed.


Lemma FloatingWindow_new_run (p : path) (a : gui) :
  let a' := snd (FloatingWindow_new p a) in
  fst (FloatingWindow_new p a) = fst (__init__ p (sys a)) /\
  sys a' = snd (__init__ p (sys a)) /\
  floating_window a' = floating_window a /\
  window_visible a' = window_visible a /\
  result_dialog a' = None /\
  (fst (__init__ p (sys a)) = Return tt -> window_pos a' = corner a).
Proof.
  cbv zeta. unfold FloatingWindow_new, __init__, init_ui, move_to_corner, corner.
  ui_run. py_run.
  match goal with |- context [load_names p ?v] => destruct (load_names p v) as [[[]|e] w1] end;
    cbn [fst snd sys floating_window window_visible result_dialog window_pos screen_size].
  - repeat split. intros _. f_equal; lia.
  - repeat split. discriminate.
Qed.

(** X16. Triggering the plugin while its window exists builds nothing: the
    roster is not loaded again, the cycle goes on where it was, the window
    is shown where it is. *)
Theorem execute_keeps_existing_window (p : path) (a : gui) :
  floating_window a = true ->
  let a' := snd (execute p a) in
  fst (execute p a) = Return tt /\
  same_selector (sys a') (sys a) /\ files (sys a') = files (sys a) /\
  floating_window a' = true /\ window_visible a' = true /\
  result_dialog a' = result_dialog a /\ window_pos a' = window_pos a.
Proof.
  intros E. cbv zeta. unfold execute. ui_run. rewrite E. cbn [negb fst snd].
  repeat split.
Qed.

(** X17. The first trigger never raises.  When the loader returns a list,
    the window exists afterwards, in the corner of the screen, with that
    list as roster, a permutation of it as queue, the cursor at 0 and no
    result dialog; when the loader raises, there is no window, the error is
    logged, and the next trigger starts over. *)
Theorem execute_builds_the_selector (p : path) (a : gui) :
  floating_window a = false ->
  let a' := snd (execute p a) in
  fst (execute p a) = Return tt /\
  match fst (read_names_from_file p (sys a)) with
  | Return l =>
    floating_window a' = true /\ window_visible a' = true /\
    roster (sys a') = l /\ queue (sys a') ≡ₚ l /\ cursor (sys a') = 0 /\
    result_dialog a' = None /\ window_pos a' = corner a /\
    reachable (sys a')
  | Raise e =>
    floating_window a' = false /\ window_visible a' = window_visible a /\
    last (log (sys a')) =
      Some (ERROR, WithExn (text "随机点名插件启动失败: ") e)
  end.
Proof.
  intros E. cbv zeta. unfold execute.
  cbv [ubind utry ugets umodify ulog lift logger modify uret].
  cbn [fst snd sys]. cbv [with_sys]. cbn [fst snd sys floating_window].
  rewrite E. cbn [negb].
  match goal with |- context [FloatingWindow_new p ?b] => set (a1 := b) end.
  destruct (FloatingWindow_new_run p a1) as (Hf & Hs & Hfw & Hv & Hd & Hp).
  cbv zeta in *.
  pose proof (init_loads_roster p (sys a1)) as Hc.
  rewrite (read_names_from_file_same_files p (sys a) (sys a1)) in Hc by reflexivity.
  destruct (FloatingWindow_new p a1) as [r a2]. cbn [fst snd] in *.
  destruct (fst (read_names_from_file p (sys a))) as [l|e].
  - cbv zeta in Hc. destruct Hc as (Hi & Hr & Hq & Hcur & _).
    rewrite Hi in Hf. subst r.
    cbn [fst snd sys floating_window window_visible result_dialog window_pos
         with_floating_window with_window_visible].
    split; [reflexivity|]. split; [reflexivity|]. split; [reflexivity|].
    change (roster (with_log _ (with_log _ (sys a2)))) with (roster (sys a2)).
    change (queue (with_log _ (with_log _ (sys a2)))) with (queue (sys a2)).
    change (cursor (with_log _ (with_log _ (sys a2)))) with (cursor (sys a2)).
    rewrite Hs. split; [exact Hr|]. split; [exact Hq|]. split; [exact Hcur|].
    split; [exact Hd|]. split; [apply Hp, Hi|].
    repeat apply reachable_with_log. apply reach_new, Hi.
  - rewrite Hc in Hf. subst r.
    cbn [fst snd sys floating_window window_visible log with_log].
    subst a1. cbn [floating_window window_visible] in Hfw, Hv.
    split; [reflexivity|]. split; [congruence|]. split; [congruence|].
    apply last_snoc.
Qed.

Lemma reroll_times_take (n : nat) : forall (a : gui) (k : nat) (d : NameResultDialog),
  reachable (sys a) ->
  result_dialog a = Some d ->
  cursor (sys a) = Z.of_nat k ->
  (k + n <= length (queue (sys a)))%nat ->
  exists a',
    reroll_times n a =
      (Return (map Some (take n (drop k (queue (sys a))))), a').
Proof.
  induction n as [|n IH]; intros a k d Hr Hd Hk Hle.
  - exists a. reflexivity.
  - destruct (lookup_lt_is_Some_2 (queue (sys a)) k ltac:(lia)) as [x Ex].
    cbn [reroll_times]. unfold ubind at 1, reroll_name. ui_run. rewrite Hd.
    match goal with |- context [get_next_name ?v] => set (v0 := v) end.
    rewrite (get_next_name_take v0 x)
      by (change (cursor v0) with (cursor (sys a)); change (queue v0) with (queue (sys a));
          rewrite Hk, ?Nat2Z.id; (lia || assumption)).
    cbn [fst snd].
    match goal with |- context [reroll_times n ?b] => set (a1 := b) end.
    assert (Hq : queue (sys a1) = queue (sys a)) by reflexivity.
    destruct (IH a1 (S k) (update_content d x)) as [a' Ha'].
    + subst a1. cbn [sys]. apply reachable_with_log.
      pose proof (reach_next v0 (reachable_with_log _ _ Hr)) as R.
      rewrite (get_next_name_take v0 x) in R
        by (change (cursor v0) with (cursor (sys a)); change (queue v0) with (queue (sys a));
            rewrite Hk, ?Nat2Z.id; (lia || assumption)).
      exact R.
    + reflexivity.
    + subst a1. unfold cursor. cbn. unfold cursor in Hk. rewrite Hk. lia.
    + rewrite Hq. lia.
    + rewrite Ha', Hq. exists a'. rewrite (drop_S _ _ _ Ex). reflexivity.
Qed.

(** X18. From the start of a cycle over N >= 1 names, one click followed by
    N - 1 rerolls shows the whole queue in order: every roster name as
    often as it occurs in the roster. *)
Theorem click_and_rerolls_show_a_cycle (a : gui) :
  reachable (sys a) -> cursor (sys a) = 0 -> roster (sys a) <> [] ->
  exists a',
    click_then_rerolls (length (roster (sys a)) - 1) a
      = (Return (map Some (queue (sys a))), a') /\
    queue (sys a) ≡ₚ roster (sys a).
Proof.
  intros Hr Hc Hne. pose proof (reachable_ok _ Hr) as Hok.
  pose proof (queue_perm _ Hok) as P. pose proof (Permutation_length P) as L.
  destruct (queue (sys a)) as [|x q] eqn:Eq.
  { apply Permutation_nil_l in P. congruence. }
  unfold click_then_rerolls, ubind at 1.
  destruct (show_random_name_run a Hr)
    as (nm & w' & d & Hn & Hf & Hd & _ & Hl & _ & _ & Hs & Hr' & _).
  rewrite (get_next_name_take (sys a) x) in Hn
    by (rewrite ?Hc, ?Eq; (lia || reflexivity)).
  injection Hn as <- <-.
  destruct (same_selector_views _ _ Hs) as (_ & Eq' & Ec').
  destruct (show_random_name a) as [r a1]. cbn [fst snd] in *. subst r.
  unfold ubind at 1, shown_name, ugets. rewrite Hd, Hl.
  destruct (reroll_times_take (length (roster (sys a)) - 1) a1 1 d Hr' Hd)
    as [a' Ha'].
  - rewrite Ec'. unfold cursor in *. cbn. rewrite Hc. reflexivity.
  - rewrite Eq'. change (queue (at_cursor _ (sys a))) with (queue (sys a)).
    rewrite Eq. cbn [length] in *. lia.
  - exists a'. split; [|exact P]. unfold ubind. rewrite Ha', Eq'.
    change (queue (at_cursor _ (sys a))) with (queue (sys a)). rewrite Eq.
    cbn [drop]. rewrite drop_0, take_ge by (cbn [length] in L; lia). reflexivity.
Qed.

(** ** The particles *)

Section ParticleFacts.
Context {Particle : Type}.
Variable Particle_new : Z -> Z -> random_state -> Particle * random_state.
Variable Particle_update : Particle -> Particle * bool.

Lemma spawn_length (n w h : nat) : forall (ps : list Particle) g,
  length (fst (spawn Particle Particle_new n w h ps g)) = (length ps + n)%nat.
Proof.
  induction n as [|n IH]; intros ps g; cbn [spawn]; [cbn; lia|].
  destruct (randint0 w g) as [x g1]. destruct (randint0 h g1) as [y g2].
  destruct (Particle_new x y g2) as [p g3].
  rewrite IH, length_app. cbn. lia.
Qed.

Lemma update_all_length (ps : list Particle) :
  (length (update_all Particle Particle_update ps) <= length ps)%nat.
Proof.
  induction ps as [|p ps IH]; cbn [update_all]; [lia|].
  destruct (Particle_update p) as [p' [|]]; cbn [length]; lia.
Qed.

Lemma update_all_alive (ps : list Particle) :
  Forall (fun p' => exists p, p ∈ ps /\ Particle_update p = (p', true))
    (update_all Particle Particle_update ps).
Proof.
  induction ps as [|p ps IH]; cbn [update_all]; [constructor|].
  destruct (Particle_update p) as [p' [|]] eqn:E.
  - constructor.
    + exists p. split; [constructor|exact E].
    + eapply Forall_impl; [exact IH|]. intros q (p0 & Hin & Hq).
      exists p0. split; [constructor; exact Hin|exact Hq].
  - eapply Forall_impl; [exact IH|]. intros q (p0 & Hin & Hq).
    exists p0. split; [constructor; exact Hin|exact Hq].
Qed.

Lemma update_particles_length (w h : nat) (ps : list Particle) g :
  (length (fst (update_particles Particle Particle_new Particle_update w h ps g))
   <= Nat.max (length ps) 31)%nat.
Proof.
  unfold update_particles.
  destruct (length ps <? 30)%nat eqn:E.
  - apply Nat.ltb_lt in E.
    pose proof (spawn_length 2 w h ps g) as L.
    destruct (spawn Particle Particle_new 2 w h ps g) as [sp g']. cbn [fst] in *.
    pose proof (update_all_length sp). lia.
  - cbn [fst]. pose proof (update_all_length ps). lia.
Qed.
End ParticleFacts.

(** X19. However particles move and die, the dialog never holds more than
    31 of them after a timer tick, and every particle a tick keeps reported
    [life > 0] at its update. *)
Theorem particles_never_exceed_31 (Particle : Type)
    (Particle_new : Z -> Z -> random_state -> Particle * random_state)
    (Particle_update : Particle -> Particle * bool)
    (n width height : nat) (g : random_state) :
  (length (fst (ticks Particle Particle_new Particle_update n width height g))
   <= 31)%nat /\
  forall particles g',
    Forall (fun p' => exists p, Particle_update p = (p', true))
      (fst (update_particles Particle Particle_new Particle_update
              width height particles g')).
Proof.
  split; [|intros ps g'; unfold update_particles;
           destruct (if (length ps <? 30)%nat then _ else _) as [sp g2];
           cbn [fst];
           eapply Forall_impl; [apply update_all_alive|];
           intros q (p0 & _ & Hq); eauto].
  induction n as [|n IH]; cbn [ticks]; [cbn; lia|].
  destruct (ticks Particle Particle_new Particle_update n width height g)
    as [ps g'].
  cbn [fst] in IH.
  pose proof (update_particles_length Particle_new Particle_update
                width height ps g') as H.
  lia.
Qed.

(** ** The properties that later proofs build on, as theorems *)

(** X1. In every state of a selector, [get_next_name] returns: the sentinel
    when the roster is empty, a name of the roster otherwise.  The
    [IndexError] of [self.shuffled_names[self.current_index]] never
    happens. *)
Theorem get_next_name_returns (w : world) :
  reachable w ->
  exists nm w',
    get_next_name w = (Return nm, w') /\
    (roster w = [] -> nm = text "名单为空") /\
    (roster w <> [] -> nm ∈ roster w).
Proof. apply next_name_from_roster. Qed.

(** X4. The selector looks at nothing but its own attributes, its lists and
    the generator: in two worlds that agree on these, whatever their logs
    and files, [get_next_name] returns the same and leaves the same
    selector.  Editing or deleting the roster file while the plugin runs
    changes no draw. *)
Theorem selector_ignores_files_and_log (v w : world) :
  reachable w -> same_selector v w ->
  fst (get_next_name v) = fst (get_next_name w) /\
  same_selector (snd (get_next_name v)) (snd (get_next_name w)).
Proof. intros Hr. apply get_next_name_same_selector, reachable_ok, Hr. Qed.

(** X5. Every name that [read_names_from_file] returns, from the file or
    from its built-in lists, is non-empty, has no whitespace at either end
    and contains no line boundary. *)
Theorem loader_returns_clean_names (p : path) (w w' : world) (l : list str) :
  read_names_from_file p w = (Return l, w') -> clean_roster l.
Proof. apply loader_clean. Qed.

(** X8. The constructor takes its roster from the loader: when
    [read_names_from_file] returns a list, [__init__] returns, the roster is
    that list, the queue a permutation of it, the cursor 0, and the last
    log record tells the length; when the loader raises, [__init__] raises
    the same exception. *)
Theorem constructor_loads_the_roster (p : path) (w : world) :
  match fst (read_names_from_file p w) with
  | Return l =>
    let w' := snd (__init__ p w) in
    fst (__init__ p w) = Return tt /\
    roster w' = l /\ queue w' ≡ₚ l /\ cursor w' = 0 /\
    last (log w') =
      Some (INFO, WithInt (text "随机点名：加载了 ") (Z.of_nat (length l)) (text " 个名字"))
  | Raise e => fst (__init__ p w) = Raise e
  end.
Proof. apply init_loads_roster. Qed.

(** ** The further properties on the sample worlds *)

Lemma get_next_name_returns_witness :
  exists nm w',
    get_next_name started = (Return nm, w') /\
    (roster started = [] -> nm = text "名单为空") /\
    (roster started <> [] -> nm ∈ roster started).
Proof.
  apply (get_next_name_returns started).
  apply reach_new. vm_compute. reflexivity.
Defined.

Lemma cycles_are_fair_witness :
  exists out w2,
    get_next_name_times (3 * length (roster started))
      (snd (reset_shuffle started)) = (Return out, w2) /\
    out ≡ₚ concat (replicate 3 (roster started)) /\
    reshuffles (log w2)
      = (reshuffles (log (snd (reset_shuffle started))) + (3 - 1))%nat.
Proof.
  apply (cycles_are_fair started 3).
  - apply reach_new. vm_compute. reflexivity.
  - vm_compute. discriminate.
Defined.

Lemma rest_of_cycle_in_order_witness :
  get_next_name_times (length (queue midway) - Z.to_nat (cursor midway)) midway =
    (Return (drop (Z.to_nat (cursor midway)) (queue midway)),
     at_cursor (Z.of_nat (length (queue midway))) midway).
Proof.
  apply (rest_of_cycle_in_order midway).
  apply reachable_times, reach_new. vm_compute. reflexivity.
Defined.

Lemma selector_ignores_files_and_log_witness :
  fst (get_next_name midway_elsewhere) = fst (get_next_name midway) /\
  same_selector (snd (get_next_name midway_elsewhere))
    (snd (get_next_name midway)).
Proof.
  apply (selector_ignores_files_and_log midway_elsewhere midway).
  - apply reachable_times, reach_new. vm_compute. reflexivity.
  - repeat split.
Defined.

Lemma loader_returns_clean_names_witness :
  clean_roster [text "Ann"; text "Bob"; text "Cy"].
Proof.
  apply (loader_returns_clean_names names_txt boot_padded boot_padded).
  vm_compute. reflexivity.
Defined.

Lemma roster_file_round_trip_witness :
  read_names_from_file saved_txt boot_saved =
    (Return [text "Ann"; text "Bob"; text "Cy"], boot_saved).
Proof.
  apply (roster_file_round_trip names_txt saved_txt boot_padded boot_padded).
  - vm_compute. reflexivity.
  - vm_compute. reflexivity.
Defined.

Lemma show_random_name_displays_witness :
  exists nm w',
    get_next_name (sys running) = (Return nm, w') /\
    result_dialog (snd (show_random_name running)) =
      Some {| dialog_name := nm; label_text := nm;
              dialog_pos := {| qx := 560; qy := 290 |};
              dialog_visible := true |} /\
    (roster (sys running) <> [] -> nm ∈ roster (sys running)) /\
    same_selector (sys (snd (show_random_name running))) w' /\
    reachable (sys (snd (show_random_name running))).
Proof.
  apply (show_random_name_displays running).
  apply reach_new. vm_compute. reflexivity.
Defined.

Lemma show_random_name_reuses_dialog_witness :
  exists nm w',
    get_next_name (sys showing) = (Return nm, w') /\
    result_dialog (snd (show_random_name showing)) =
      Some {| dialog_name := nm; label_text := nm;
              dialog_pos := {| qx := 560; qy := 290 |};
              dialog_visible := true |}.
Proof.
  apply (show_random_name_dialog showing).
  apply show_random_name_reachable, reach_new. vm_compute. reflexivity.
Defined.

Lemma reroll_without_dialog_witness :
  fst (reroll_name running) = Return tt /\
  result_dialog (snd (reroll_name running)) = None /\
  same_selector (sys (snd (reroll_name running))) (sys running).
Proof.
  apply (reroll_without_dialog running). vm_compute. reflexivity.
Defined.

Lemma reroll_shows_next_name_witness :
  exists nm w',
    get_next_name (sys showing) = (Return nm, w') /\
    fst (reroll_name showing) = Return tt /\
    result_dialog (snd (reroll_name showing)) =
      Some {| dialog_name := nm; label_text := nm;
              dialog_pos := {| qx := 560; qy := 290 |};
              dialog_visible := true |} /\
    same_selector (sys (snd (reroll_name showing))) w' /\
    reachable (sys (snd (reroll_name showing))).
Proof.
  apply (reroll_shows_next_name showing
           {| dialog_name := text "张三"; label_text := text "张三";
              dialog_pos := {| qx := 560; qy := 290 |};
              dialog_visible := true |}).
  - apply show_random_name_reachable, reach_new. vm_compute. reflexivity.
  - vm_compute. reflexivity.
Defined.

Lemma release_within_15_is_a_click_witness :
  exists nm w' d,
    get_next_name (sys running) = (Return nm, w') /\
    fst (mouseReleaseEvent release_near running) = Return tt /\
    same_selector (sys (snd (mouseReleaseEvent release_near running))) w' /\
    result_dialog (snd (mouseReleaseEvent release_near running)) = Some d /\
    label_text d = nm /\ dialog_visible d = true /\
    window_pos (snd (mouseReleaseEvent release_near running))
      = window_pos running.
Proof.
  apply (release_within_15_is_a_click running release_near).
  - apply reach_new. vm_compute. reflexivity.
  - reflexivity.
  - vm_compute. discriminate.
Defined.

Lemma release_elsewhere_draws_nothing_witness :
  fst (mouseReleaseEvent release_far running) = Return tt /\
  same_selector (sys (snd (mouseReleaseEvent release_far running)))
    (sys running) /\
  result_dialog (snd (mouseReleaseEvent release_far running))
    = result_dialog running /\
  window_pos (snd (mouseReleaseEvent release_far running))
    = window_pos running.
Proof.
  apply (release_elsewhere_draws_nothing running release_far).
  right. vm_compute. reflexivity.
Defined.

Lemma drag_keeps_the_grab_point_witness :
  QPoint_sub (globalPos move_b)
    (window_pos (snd (ubind (mousePressEvent press_event)
                        (fun _ => mouse_moves ([move_a] ++ [move_b]))
                        running)))
    = QPoint_sub (globalPos press_event) (window_pos running) /\
  sys (snd (ubind (mousePressEvent press_event)
              (fun _ => mouse_moves ([move_a] ++ [move_b])) running))
    = sys running /\
  result_dialog (snd (ubind (mousePressEvent press_event)
                        (fun _ => mouse_moves ([move_a] ++ [move_b]))
                        running))
    = result_dialog running.
Proof.
  apply (drag_keeps_the_grab_point running press_event move_b [move_a]).
  - reflexivity.
  - repeat constructor.
Defined.

Lemma execute_keeps_existing_window_witness :
  fst (execute names_txt running) = Return tt /\
  same_selector (sys (snd (execute names_txt running))) (sys running) /\
  files (sys (snd (execute names_txt running))) = files (sys running) /\
  floating_window (snd (execute names_txt running)) = true /\
  window_visible (snd (execute names_txt running)) = true /\
  result_dialog (snd (execute names_txt running)) = result_dialog running /\
  window_pos (snd (execute names_txt running)) = window_pos running.
Proof.
  apply (execute_keeps_existing_window names_txt running). reflexivity.
Defined.

Lemma execute_builds_the_selector_witness :
  fst (execute names_txt desk) = Return tt /\
  floating_window (snd (execute names_txt desk)) = true /\
  window_visible (snd (execute names_txt desk)) = true /\
  roster (sys (snd (execute names_txt desk))) = default_names /\
  queue (sys (snd (execute names_txt desk))) ≡ₚ default_names /\
  cursor (sys (snd (execute names_txt desk))) = 0 /\
  result_dialog (snd (execute names_txt desk)) = None /\
  window_pos (snd (execute names_txt desk)) = {| qx := 1850; qy := 1000 |} /\
  reachable (sys (snd (execute names_txt desk))).
Proof.
  apply (execute_builds_the_selector names_txt desk). reflexivity.
Defined.

Lemma click_and_rerolls_show_a_cycle_witness :
  exists a',
    click_then_rerolls (length (roster (sys running)) - 1) running
      = (Return (map Some (queue (sys running))), a') /\
    queue (sys running) ≡ₚ roster (sys running).
Proof.
  apply (click_and_rerolls_show_a_cycle running).
  - apply reach_new. vm_compute. reflexivity.
  - reflexivity.
  - vm_compute. discriminate.
Defined.
